(** * Argument streams of tchannel (node/argstream.js)

    A shallow embedding of [ArgStream], [InArgStream], [OutArgStream] and
    [StreamArg], and the properties of the argument-framing layer proved
    about them.

    Buffers are lists of bytes: [Buffer(0)] is [[]], [buf.length] is
    [length buf] and [Buffer.concat([a, b])] is [a ++ b].

    [StreamArg] extends Node's [PassThrough].  The stream library is not
    part of the repository; the part of it the code relies on is modelled as
    follows.
    - [write(chunk)] on a stream whose writable side has ended reports a
      'write after end' error event and does not reach [_write]; otherwise
      it calls [_write], and the pass-through hands the chunk on unchanged.
    - [end()] is ignored on a stream that has already ended; otherwise it
      marks the writable side ended and 'finish' fires (at once, as Node
      does when no write is pending).
    - on the readable side, 'data' and 'end' reach their listeners at a
      time chosen by Node; the outbound model takes these deliveries as its
      input events. *)

From Stdlib Require Import List Arith Bool Lia.
From Stdlib Require Import Strings.Byte.
Import ListNotations.

(** A chunk is a buffer. *)
Abbreviation chunk := (list byte).

(** [chunk.length] used as a condition. *)
Definition has_length (c : chunk) : bool :=
  match c with [] => false | _ :: _ => true end.

(** ** StreamArg *)

Module StreamArg.

(** [started] is the field of the source; [ended] is
    [_writableState.ended]; [written] lists the chunks that went through
    the pass-through, in order. *)
Record t : Type := mk {
  started : bool;
  ended : bool;
  written : list chunk
}.

Definition create : t := mk false false [].

(** The bytes of the slot: what a reader of the stream receives. *)
Definition bytes (a : t) : chunk := concat (written a).

Definition set_started (a : t) : t := mk true (ended a) (written a).
Definition set_ended (a : t) : t := mk (started a) true (written a).
Definition push (a : t) (c : chunk) : t :=
  mk (started a) (ended a) (written a ++ [c]).

End StreamArg.

(** ** ArgStream *)

Module ArgStream.

Record t : Type := mk {
  arg1 : StreamArg.t;
  arg2 : StreamArg.t;
  arg3 : StreamArg.t
}.

Definition create : t :=
  mk StreamArg.create StreamArg.create StreamArg.create.

(** What the three streams signal to the listeners attached to them. *)
Inductive signal : Type :=
| Start (k : nat)
| Finish (k : nat)
| WriteAfterEnd (k : nat).

Definition slot (a : t) (k : nat) : option StreamArg.t :=
  match k with
  | 1 => Some (arg1 a)
  | 2 => Some (arg2 a)
  | 3 => Some (arg3 a)
  | _ => None
  end.

Definition set_slot (a : t) (k : nat) (v : StreamArg.t) : t :=
  match k with
  | 1 => mk v (arg2 a) (arg3 a)
  | 2 => mk (arg1 a) v (arg3 a)
  | 3 => mk (arg1 a) (arg2 a) v
  | _ => a
  end.

(** [argK.end()]. *)
Definition end_ (a : t) (k : nat) : t * list signal :=
  match slot a k with
  | Some v =>
      if StreamArg.ended v then (a, [])
      else (set_slot a k (StreamArg.set_ended v), [Finish k])
  | None => (a, [])
  end.

(** The 'start' listeners [onArg2Start] and [onArg3Start]. *)
Definition on_start (a : t) (k : nat) : t * list signal :=
  match k with
  | 2 => if negb (StreamArg.ended (arg1 a)) then end_ a 1 else (a, [])
  | 3 => if negb (StreamArg.ended (arg2 a)) then end_ a 2 else (a, [])
  | _ => (a, [])
  end.

(** [StreamArg.prototype._write] on slot [k]. *)
Definition _write (a : t) (k : nat) (c : chunk) : t * list signal :=
  match slot a k with
  | Some v =>
      let '(a1, sigs) :=
        if negb (StreamArg.started v)
        then
          let '(a0, s0) := on_start (set_slot a k (StreamArg.set_started v)) k in
          (a0, Start k :: s0)
        else (a, []) in
      match slot a1 k with
      | Some v1 => (set_slot a1 k (StreamArg.push v1 c), sigs)
      | None => (a1, sigs)
      end
  | None => (a, [])
  end.

(** [argK.write(chunk)]. *)
Definition write (a : t) (k : nat) (c : chunk) : t * list signal :=
  match slot a k with
  | Some v =>
      if StreamArg.ended v then (a, [WriteAfterEnd k]) else _write a k c
  | None => (a, [])
  end.

End ArgStream.

(** ** InArgStream *)

Module InArgStream.

Inductive error : Type :=
| StreamAlreadyFinished   (* Error('arg stream finished') *)
| FrameArityExceeded.     (* Error('frame parts exceeded stream arity') *)

Inductive outcome : Type :=
| Returned
| Thrown (e : error).

(** Events the pair itself emits. *)
Inductive event : Type :=
| EvFinish
| EvError (k : nat).

Record t : Type := mk {
  args : ArgStream.t;
  _iStream : nat;
  finished : bool;
  _numFinished : nat;
  events : list event
}.

Definition create : t := mk ArgStream.create 0 false 0 [].

(** [self.streams[i]] is slot [i + 1]; [self.streams.length] is 3. *)
Definition streams_length : nat := 3.

Definition stream_defined (s : t) : bool := _iStream s <? streams_length.

(** The listeners [argFinished] and [passError]. *)
Definition on_signal (s : t) (g : ArgStream.signal) : t :=
  match g with
  | ArgStream.Finish _ =>
      let n := S (_numFinished s) in
      if n =? 3
      then mk (args s) (_iStream s) true n (events s ++ [EvFinish])
      else mk (args s) (_iStream s) (finished s) n (events s)
  | ArgStream.WriteAfterEnd k =>
      mk (args s) (_iStream s) (finished s) (_numFinished s)
         (events s ++ [EvError k])
  | ArgStream.Start _ => s
  end.

Definition on_signals (s : t) (gs : list ArgStream.signal) : t :=
  fold_left on_signal gs s.

Definition with_args (s : t) (a : ArgStream.t) : t :=
  mk a (_iStream s) (finished s) (_numFinished s) (events s).

Definition with_iStream (s : t) (i : nat) : t :=
  mk (args s) i (finished s) (_numFinished s) (events s).

(** [self.streams[self._iStream].end()]. *)
Definition end_current (s : t) : t :=
  let '(a, gs) := ArgStream.end_ (args s) (S (_iStream s)) in
  on_signals (with_args s a) gs.

(** [stream.write(c)] for the stream under the cursor. *)
Definition write_current (s : t) (c : chunk) : t :=
  let '(a, gs) := ArgStream.write (args s) (S (_iStream s)) c in
  on_signals (with_args s a) gs.

(** The inner function [advance]; the stream it returns is the one under
    the new cursor. *)
Definition advance (s : t) : t :=
  if _iStream s <? streams_length
  then let s1 := end_current s in with_iStream s1 (S (_iStream s1))
  else s.

(** [while (stream) stream = advance();]: the cursor grows at each turn
    and stops at [streams.length], so [streams_length] turns are enough
    (see [drain_exhausted]). *)
Fixpoint drain (fuel : nat) (s : t) : t :=
  match fuel with
  | 0 => s
  | S f => if stream_defined s then drain f (advance s) else s
  end.

(** The [for] loop over [parts].  [first] tells whether [i = 0]; the
    boolean result tells whether the loop left through [break], that is
    with [i < parts.length]. *)
Fixpoint frame_loop (first : bool) (s : t) (parts : list chunk) : t * bool :=
  match parts with
  | [] => (s, false)
  | p :: rest =>
      let s1 := if first then s else advance s in
      if stream_defined s1
      then frame_loop false (if has_length p then write_current s1 p else s1) rest
      else (s1, true)
  end.

(** [handleFrame(parts)]; [None] is the [null] argument. *)
Definition handleFrame (s : t) (parts : option (list chunk)) : t * outcome :=
  match parts with
  | None => (drain streams_length s, Returned)
  | Some ps =>
      if finished s then (s, Thrown StreamAlreadyFinished)
      else
        let '(s1, broke) := frame_loop true s ps in
        if broke then (s1, Thrown FrameArityExceeded) else (s1, Returned)
  end.

(** Feeding frame groups in order; stops at the first call that throws. *)
Fixpoint feed (s : t) (groups : list (list chunk)) : t * outcome :=
  match groups with
  | [] => (s, Returned)
  | g :: rest =>
      match handleFrame s (Some g) with
      | (s1, Returned) => feed s1 rest
      | r => r
      end
  end.

Definition slot_bytes (s : t) (k : nat) : chunk :=
  match ArgStream.slot (args s) k with
  | Some v => StreamArg.bytes v
  | None => []
  end.

Definition slot_ended (s : t) (k : nat) : bool :=
  match ArgStream.slot (args s) k with
  | Some v => StreamArg.ended v
  | None => false
  end.

End InArgStream.

(** ** OutArgStream *)

(** [a[n] = v] on a JavaScript array: an index past the end extends the
    array, the holes read as [undefined], which counts as [false]. *)
Fixpoint array_set (l : list bool) (n : nat) (v : bool) : list bool :=
  match n, l with
  | 0, [] => [v]
  | 0, _ :: r => v :: r
  | S k, [] => false :: array_set [] k v
  | S k, x :: r => x :: array_set r k v
  end.

(** [a[i] = v] for an index inside the array. *)
Fixpoint array_put (l : list chunk) (i : nat) (v : chunk) : list chunk :=
  match i, l with
  | _, [] => []
  | 0, _ :: r => v :: r
  | S k, x :: r => x :: array_put r k v
  end.

(** The three listeners of each kind are attached with the literals 1, 2
    and 3. *)
Inductive argn : Type := N1 | N2 | N3.

Definition num (a : argn) : nat :=
  match a with N1 => 1 | N2 => 2 | N3 => 3 end.

Module OutArgStream.

(** [ArgChunkOutOfOrderError({current, got, chunk})]. *)
Record ArgChunkOutOfOrder : Type := OutOfOrder {
  current : nat;
  got : nat;
  rejected : chunk
}.

(** The fields of the source, followed by what the pair has emitted:
    the 'frame' events [(parts, isLast)], the 'error' events and the
    number of 'finish' events.  [_flushImmed] is [true] when a
    [setImmediate] handle is held.  [ended[0]] is [null]; [null] and
    [undefined] are read as [false].  The three [StreamArg] of the pair
    are used by the code below only in [pause] and [resume], which tell
    Node when to deliver 'data' and 'end'; the deliveries are the input
    of the model. *)
Record t : Type := mk {
  _flushImmed : bool;
  finished : bool;
  frame : list chunk;
  currentArgN : nat;
  ended : list bool;
  paused : bool;
  frames : list (list chunk * bool);
  errors : list ArgChunkOutOfOrder;
  finishes : nat
}.

Definition create : t :=
  mk false false [[]] 1 [false; false; false; false] false [] [] 0.

Definition set_flushImmed (s : t) (b : bool) : t :=
  mk b (finished s) (frame s) (currentArgN s) (ended s) (paused s)
     (frames s) (errors s) (finishes s).
Definition set_finished (s : t) : t :=
  mk (_flushImmed s) true (frame s) (currentArgN s) (ended s) (paused s)
     (frames s) (errors s) (S (finishes s)).
Definition set_frame (s : t) (f : list chunk) : t :=
  mk (_flushImmed s) (finished s) f (currentArgN s) (ended s) (paused s)
     (frames s) (errors s) (finishes s).
Definition set_cursor (s : t) (n : nat) (f : list chunk) : t :=
  mk (_flushImmed s) (finished s) f n (ended s) (paused s)
     (frames s) (errors s) (finishes s).
Definition set_ended (s : t) (n : nat) : t :=
  mk (_flushImmed s) (finished s) (frame s) (currentArgN s)
     (array_set (ended s) n true) (paused s)
     (frames s) (errors s) (finishes s).
Definition set_paused (s : t) (b : bool) : t :=
  mk (_flushImmed s) (finished s) (frame s) (currentArgN s) (ended s) b
     (frames s) (errors s) (finishes s).
Definition emit_frame (s : t) (g : list chunk * bool) : t :=
  mk (_flushImmed s) (finished s) (frame s) (currentArgN s) (ended s)
     (paused s) (frames s ++ [g]) (errors s) (finishes s).
Definition emit_error (s : t) (e : ArgChunkOutOfOrder) : t :=
  mk (_flushImmed s) (finished s) (frame s) (currentArgN s) (ended s)
     (paused s) (frames s) (errors s ++ [e]) (finishes s).

(** [self.ended[n]] as a condition. *)
Definition is_ended (s : t) (n : nat) : bool := nth n (ended s) false.

Definition all_ended (s : t) : bool :=
  is_ended s 1 && is_ended s 2 && is_ended s 3.

(** [_flushParts(isLast)]; a missing argument is [false]. *)
Definition _flushParts (s : t) (isLast : bool) : t :=
  let s1 := if _flushImmed s then set_flushImmed s false else s in
  if paused s1 then s1
  else if finished s1 && negb isLast then s1
  else
    let fr := frame s1 in
    let s2 := set_frame s1 [[]] in
    if 0 <? length fr then emit_frame s2 (fr, isLast) else s2.

Definition _deferFlushParts (s : t) : t :=
  if negb (_flushImmed s) && negb (paused s)
  then set_flushImmed s true
  else s.

(** The callback given to [setImmediate]; it runs when a handle is held. *)
Definition tick (s : t) : t :=
  if _flushImmed s then _flushParts s false else s.

(** [_maybeFlush].  [None] is the [TypeError] of [self.frame[0].length]
    on an empty array. *)
Definition _maybeFlush (s : t) : option t :=
  if finished s && is_ended s 1 && is_ended s 2 && is_ended s 3
  then Some (_flushParts s true)
  else
    match frame s with
    | [] => None
    | f0 :: _ =>
        if (1 <? length (frame s)) || has_length f0
        then Some (_deferFlushParts s)
        else Some s
    end.

(** [_appendFrameChunk].  [None] is the [TypeError] of [buf.length] when
    the array is empty ([self.frame[-1]] is [undefined]). *)
Definition _appendFrameChunk (s : t) (c : chunk) : option t :=
  match length (frame s) with
  | 0 => None
  | S i =>
      match nth_error (frame s) i with
      | Some buf =>
          if has_length buf
          then
            if has_length c
            then Some (set_frame s (array_put (frame s) i (buf ++ c)))
            else Some s
          else Some (set_frame s (array_put (frame s) i c))
      | None => None
      end
  end.

(** [while (++self.currentArgN < n) self.frame.push(Buffer(0));]
    The cursor grows until it is [n]: [n] turns are enough. *)
Fixpoint pad_loop (fuel cur n : nat) (fr : list chunk) : nat * list chunk :=
  match fuel with
  | 0 => (cur, fr)
  | S f =>
      let cur' := S cur in
      if cur' <? n then pad_loop f cur' n (fr ++ [[]]) else (cur', fr)
  end.

(** [while (self.ended[self.currentArgN]) {
       if (++self.currentArgN <= 3) self.frame.push(Buffer(0)); }]
    Each turn needs a [true] entry at a larger index: [ended.length]
    turns are enough (see [advance_loop_exits]). *)
Fixpoint advance_loop (fuel : nat) (e : list bool) (cur : nat)
    (fr : list chunk) : nat * list chunk :=
  match fuel with
  | 0 => (cur, fr)
  | S f =>
      if nth cur e false
      then
        let cur' := S cur in
        advance_loop f e cur' (if cur' <=? 3 then fr ++ [[]] else fr)
      else (cur, fr)
  end.

Definition auto_advance (s : t) : t :=
  let '(cur, fr) :=
    advance_loop (length (ended s)) (ended s) (currentArgN s) (frame s) in
  set_cursor s cur fr.

(** The end of [_handleFrameChunk]: the auto-advance loop, then
    [_maybeFlush]. *)
Definition settle (s : t) : option t := _maybeFlush (auto_advance s).

(** [_handleFrameChunk(n, chunk)]; [None] as chunk is [null]. *)
Definition _handleFrameChunk (s : t) (n : nat) (c : option chunk) : option t :=
  if n <? currentArgN s then
    match c with
    | None => Some (set_ended s n)
    | Some ch => Some (emit_error s (OutOfOrder (currentArgN s) n ch))
    end
  else if currentArgN s <? n then
    match c with
    | None => Some (set_ended s n)
    | Some ch =>
        let '(cur, fr) := pad_loop n (currentArgN s) n (frame s) in
        settle (set_cursor s cur (fr ++ [ch]))
    end
  else
    match c with
    | None => settle (set_ended s n)
    | Some ch =>
        match _appendFrameChunk s ch with
        | Some s1 => settle s1
        | None => None
        end
    end.

Definition pause (s : t) : t :=
  let s1 := set_paused s true in
  if _flushImmed s1 then set_flushImmed s1 false else s1.

Definition resume (s : t) : option t := _maybeFlush (set_paused s false).

(** The 'end' listeners: [onArg1End], [onArg2End], [onArg3End]. *)
Definition onArgEnd (s : t) (a : argn) : option t :=
  match a with
  | N3 =>
      match _handleFrameChunk s 3 None with
      | Some s1 =>
          let s2 := if negb (paused s1) then _flushParts s1 true else s1 in
          Some (set_finished s2)
      | None => None
      end
  | _ => _handleFrameChunk s (num a) None
  end.

(** The 'data' listeners. *)
Definition onArgData (s : t) (a : argn) (c : chunk) : option t :=
  _handleFrameChunk s (num a) (Some c).

(** What can happen to the pair: a chunk or the end of a slot is
    delivered, the caller pauses or resumes, the event loop reaches the
    deferred flush. *)
Inductive event : Type :=
| Data (a : argn) (c : chunk)
| End (a : argn)
| Pause
| Resume
| Tick.

Definition step (s : t) (e : event) : option t :=
  match e with
  | Data a c => onArgData s a c
  | End a => onArgEnd s a
  | Pause => Some (pause s)
  | Resume => resume s
  | Tick => Some (tick s)
  end.

Fixpoint run (s : t) (es : list event) : option t :=
  match es with
  | [] => Some s
  | e :: r =>
      match step s e with
      | Some s1 => run s1 r
      | None => None
      end
  end.

(** The groups of the emitted 'frame' events, in order. *)
Definition groups (s : t) : list (list chunk) := map fst (frames s).

End OutArgStream.

(** ** Predicates used in the statements *)

(** An inbound state in which exactly the slots behind the cursor have
    ended: what [handleFrame] keeps from [InArgStream.create] on. *)
Definition in_clean (s : InArgStream.t) : bool :=
  (InArgStream._iStream s <=? 3)
  && Bool.eqb (InArgStream.slot_ended s 1) (1 <=? InArgStream._iStream s)
  && Bool.eqb (InArgStream.slot_ended s 2) (2 <=? InArgStream._iStream s)
  && Bool.eqb (InArgStream.slot_ended s 3) (3 <=? InArgStream._iStream s).

(** The part of a frame group that lands on slot [k] when the group is
    handled with the cursor at [c]: position [k - 1 - c]. *)
Definition part_for (c : nat) (parts : list chunk) (k : nat) : chunk :=
  if c <? k then nth (k - 1 - c) parts [] else [].

(** The auto-advance as the specification words it: while
    [ended[currentArgN]] is true and [currentArgN <= 3], increment
    [currentArgN] and push an empty placeholder chunk. *)
Fixpoint spec_advance_loop (fuel : nat) (e : list bool) (cur : nat)
    (fr : list chunk) : nat * list chunk :=
  match fuel with
  | 0 => (cur, fr)
  | S f =>
      if nth cur e false && (cur <=? 3)
      then spec_advance_loop f e (S cur) (fr ++ [[]])
      else (cur, fr)
  end.

Definition spec_auto_advance (s : OutArgStream.t) : OutArgStream.t :=
  let '(cur, fr) :=
    spec_advance_loop (length (OutArgStream.ended s)) (OutArgStream.ended s)
      (OutArgStream.currentArgN s) (OutArgStream.frame s) in
  OutArgStream.set_cursor s cur fr.

(** Everything of an outbound state but the flush handle and the count of
    'finish' events. *)
Definition view (s : OutArgStream.t) :=
  (OutArgStream.frame s, OutArgStream.currentArgN s, OutArgStream.ended s, OutArgStream.finished s,
   OutArgStream.paused s, OutArgStream.frames s, OutArgStream.errors s).

(** The condition under which [_maybeFlush] asks for a deferred flush:
    [self.frame.length > 1 || self.frame[0].length]. *)
Definition has_content (fr : list chunk) : bool :=
  (1 <? length fr) || has_length (hd [] fr).

(** The pending frame after a data chunk [c] for slot [n] is taken in with
    the cursor at [cur <= n]: joined to the last chunk when [n] is the
    cursor, else pushed after a placeholder for each slot skipped. *)
Definition with_chunk (fr : list chunk) (cur n : nat) (c : chunk) : list chunk :=
  if cur <? n
  then fr ++ repeat [] (n - cur - 1) ++ [c]
  else removelast fr ++ [last fr [] ++ c].

(** The bytes a delivery carries, and those of a list of events. *)
Definition data_of (e : OutArgStream.event) : chunk :=
  match e with OutArgStream.Data _ c => c | _ => [] end.

Definition delivered (es : list OutArgStream.event) : chunk := concat (map data_of es).


(** ** Schedules of an in-order writer

    The caller writes argument 1, then 2, then 3, each in any number of
    chunks, and ends them.  Node delivers the chunks of a slot in the order
    written and its 'end' after them; the end of a slot may reach the pair
    after chunks of a later slot, and the end of slot 3 comes after the
    ends of slots 1 and 2.  Pauses, resumes and ticks of the event loop
    fall anywhere.  [lo] is the slot of the last chunk delivered, [cl] the
    slots whose end has been delivered. *)
Fixpoint in_order (lo : nat) (cl : list bool) (es : list OutArgStream.event) : bool :=
  match es with
  | [] => nth 1 cl false && nth 2 cl false && nth 3 cl false
  | OutArgStream.Data a _ :: r =>
      (lo <=? num a) && negb (nth (num a) cl false) && in_order (num a) cl r
  | OutArgStream.End a :: r =>
      negb (nth (num a) cl false)
      && match a with
         | N3 => nth 1 cl false && nth 2 cl false
         | _ => true
         end
      && in_order lo (array_set cl (num a) true) r
  | _ :: r => in_order lo cl r
  end.

(** The bytes an event delivers for slot [k], and those of a schedule. *)
Definition data_at (k : nat) (e : OutArgStream.event) : chunk :=
  match e with
  | OutArgStream.Data a c => if num a =? k then c else []
  | _ => []
  end.

Definition written (k : nat) (es : list OutArgStream.event) : chunk :=
  concat (map (data_at k) es).



(** ** Further definitions: callers, invariants, the drain utility *)

From Stdlib Require Import Permutation.

(** Calls of [handleFrame] one after the other, each on the state the call
    before left, also when that call threw. *)
Definition handle_all (s : InArgStream.t) (calls : list (option (list chunk)))
    : InArgStream.t :=
  fold_left (fun s p => fst (InArgStream.handleFrame s p)) calls s.

(** A slot whose [started] flag tells whether anything was written to it,
    and to which no empty chunk was written. *)
Definition slot_ok (v : StreamArg.t) : Prop :=
  StreamArg.started v = (match StreamArg.written v with [] => false | _ => true end)
  /\ Forall (fun c => has_length c = true) (StreamArg.written v).

(** What [handleFrame] keeps of an inbound pair from [create] on: the clean
    cursor, the count of 'finish' events, the [finished] flag, the events
    emitted and the three slots. *)
Definition in_sound (s : InArgStream.t) : Prop :=
  in_clean s = true
  /\ InArgStream._numFinished s = InArgStream._iStream s
  /\ InArgStream.finished s = (3 <=? InArgStream._iStream s)
  /\ InArgStream.events s
     = (if InArgStream.finished s then [InArgStream.EvFinish] else [])
  /\ slot_ok (ArgStream.arg1 (InArgStream.args s))
  /\ slot_ok (ArgStream.arg2 (InArgStream.args s))
  /\ slot_ok (ArgStream.arg3 (InArgStream.args s)).

(** The shape of the pending frame, the cursor and the flags of an outbound
    pair: the frame is not empty and has at most one chunk per slot up to
    the cursor, the cursor is within 1..4, and no flag past slot 3 is set. *)
Definition shape_ok (fr : list chunk) (cur : nat) (e : list bool) : Prop :=
  fr <> []
  /\ 1 <= cur <= 4
  /\ length fr <= Nat.min cur 3
  /\ forall k, 4 <= k -> nth k e false = false.

(** The deferred flush: none is scheduled while the pair is paused; one is
    scheduled whenever the pair is neither paused nor finished and the
    frame holds something. *)
Definition sched_ok (paused immed finished : bool) (fr : list chunk) : Prop :=
  (paused = true -> immed = false)
  /\ (paused = false -> finished = false -> has_content fr = true ->
      immed = true).

(** The emitted groups: each has one to three chunks; those marked as last
    come after all the others, and only once the pair has finished; the
    pair finishes only once slot 3 has ended. *)
Definition log_ok (frames : list (list chunk * bool)) (finished : bool)
    (e : list bool) : Prop :=
  Forall (fun g => 1 <= length (fst g) <= 3) frames
  /\ (finished = true -> nth 3 e false = true)
  /\ exists l1 l2,
       frames = l1 ++ l2
       /\ Forall (fun g => snd g = false) l1
       /\ Forall (fun g => snd g = true) l2
       /\ (finished = false -> l2 = []).

(** What every event keeps of an outbound pair from [create] on. *)
Definition out_wf (s : OutArgStream.t) : Prop :=
  shape_ok (OutArgStream.frame s) (OutArgStream.currentArgN s)
    (OutArgStream.ended s)
  /\ OutArgStream.is_ended s (OutArgStream.currentArgN s) = false
  /\ sched_ok (OutArgStream.paused s) (OutArgStream._flushImmed s)
       (OutArgStream.finished s) (OutArgStream.frame s)
  /\ log_ok (OutArgStream.frames s) (OutArgStream.finished s)
       (OutArgStream.ended s).

(** All the bytes an outbound pair holds or has emitted, in order. *)
Definition out_bytes (s : OutArgStream.t) : chunk :=
  concat (concat (OutArgStream.groups s)) ++ concat (OutArgStream.frame s).

(** The bytes of the chunks an outbound pair has rejected, in the order of
    the 'error' events. *)
Definition reported (s : OutArgStream.t) : chunk :=
  concat (map OutArgStream.rejected (OutArgStream.errors s)).

(** [keeps s s' extra]: from [s] to [s'] the cursor has not gone back, no
    flag has been cleared, the emitted groups and the reported errors have
    only grown, each new error is for a slot behind the cursor, unless an
    error was reported the bytes held have grown by [extra], and in any
    case [extra] went to the bytes held or to the bytes rejected. *)
Definition keeps (s s' : OutArgStream.t) (extra : chunk) : Prop :=
  OutArgStream.currentArgN s <= OutArgStream.currentArgN s'
  /\ (forall k, OutArgStream.is_ended s k = true ->
                OutArgStream.is_ended s' k = true)
  /\ (OutArgStream.finished s = true -> OutArgStream.finished s' = true)
  /\ (exists l, OutArgStream.frames s' = OutArgStream.frames s ++ l)
  /\ (exists x, OutArgStream.errors s' = OutArgStream.errors s ++ x
                /\ Forall (fun e => OutArgStream.got e < OutArgStream.current e) x)
  /\ (OutArgStream.errors s' = OutArgStream.errors s ->
      out_bytes s' = out_bytes s ++ extra)
  /\ Permutation (out_bytes s' ++ reported s')
       (out_bytes s ++ reported s ++ extra).

(** ** Writers of an [ArgStream] *)

(** What a writer does to the three slots of a pair: [argK.write(c)] and
    [argK.end()]. *)
Inductive arg_op : Type :=
| OpWrite (a : argn) (c : chunk)
| OpEnd (a : argn).

(** One operation, the signals it raises added to those raised before. *)
Definition arg_apply (st : ArgStream.t * list ArgStream.signal) (op : arg_op)
    : ArgStream.t * list ArgStream.signal :=
  let r := match op with
           | OpWrite a c => ArgStream.write (fst st) (num a) c
           | OpEnd a => ArgStream.end_ (fst st) (num a)
           end in
  (fst r, snd st ++ snd r).

Definition arg_run (ops : list arg_op) : ArgStream.t * list ArgStream.signal :=
  fold_left arg_apply ops (ArgStream.create, []).

Definition is_start (k : nat) (g : ArgStream.signal) : bool :=
  match g with ArgStream.Start j => j =? k | _ => false end.

Definition is_finish (k : nat) (g : ArgStream.signal) : bool :=
  match g with ArgStream.Finish j => j =? k | _ => false end.

Definition count_sig (p : ArgStream.signal -> bool)
    (gs : list ArgStream.signal) : nat :=
  length (filter p gs).

Definition flag (b : bool) : nat := if b then 1 else 0.

(** What any sequence of writes and ends keeps: 'start' has fired once for
    each slot that has started and 'finish' once for each slot that has
    ended, and a slot has started only if the slot before it has ended. *)
Definition writer_inv (st : ArgStream.t * list ArgStream.signal) : Prop :=
  (forall k v, ArgStream.slot (fst st) k = Some v ->
     count_sig (is_start k) (snd st) = flag (StreamArg.started v)
     /\ count_sig (is_finish k) (snd st) = flag (StreamArg.ended v))
  /\ (StreamArg.started (ArgStream.arg2 (fst st)) = true ->
      StreamArg.ended (ArgStream.arg1 (fst st)) = true)
  /\ (StreamArg.started (ArgStream.arg3 (fst st)) = true ->
      StreamArg.ended (ArgStream.arg2 (fst st)) = true).


(** ** bufferStreamData *)

Module BufferStreamData.

Section Errors.

(** The values an 'error' event carries. *)
Variable E : Type.

(** What the stream emits to the three listeners. *)
Inductive stream_event : Type :=
| OnData (c : chunk)
| OnError (err : E)
| OnEnd.

(** [parts] is the array of the source; [listening] tells whether the
    three listeners are still attached; [calls] lists the calls of
    [callback(err, buf)], [None] being [null]. *)
Record t : Type := mk {
  listening : bool;
  parts : list chunk;
  calls : list (option E * chunk)
}.

(** [bufferStreamData(stream, callback)]: the listeners are attached. *)
Definition start : t := mk true [] [].

Definition onData (s : t) (c : chunk) : t :=
  mk (listening s) (parts s ++ [c]) (calls s).

(** [finish(err)]; 'end' passes no argument, and [undefined] becomes
    [null]. *)
Definition finish (s : t) (err : option E) : t :=
  mk false (parts s) (calls s ++ [(err, concat (parts s))]).

(** An event of the stream reaches the listeners that are attached. *)
Definition deliver (s : t) (ev : stream_event) : t :=
  if listening s
  then match ev with
       | OnData c => onData s c
       | OnError err => finish s (Some err)
       | OnEnd => finish s None
       end
  else s.

Definition run (evs : list stream_event) : t := fold_left deliver evs start.

End Errors.

Arguments OnData {E} c.
Arguments OnError {E} err.
Arguments OnEnd {E}.
Arguments mk {E} listening parts calls.
Arguments listening {E} t.
Arguments parts {E} t.
Arguments calls {E} t.
Arguments start {E}.
Arguments onData {E} s c.
Arguments finish {E} s err.
Arguments deliver {E} s ev.
Arguments run {E} evs.

End BufferStreamData.

(** * Properties *)

(** ** ArgStream *)

Section SequentialBoundary.

Import ArgStream.

Variables (a : ArgStream.t) (k : nat) (c : chunk).
Variables (prev next : StreamArg.t).
Hypothesis Hk : k = 1 \/ k = 2.
Hypothesis Hprev : slot a k = Some prev.
Hypothesis Hnext : slot a (S k) = Some next.
Hypothesis Hfirst : StreamArg.started next = false.

Lemma first_write_slots :
  slot (fst (_write a (S k) c)) k
    = Some (if StreamArg.ended prev then prev else StreamArg.set_ended prev)
  /\ slot (fst (_write a (S k) c)) (S k)
    = Some (StreamArg.push (StreamArg.set_started next) c).
Proof.
  destruct a as [v1 v2 v3]; destruct Hk; subst k; simpl in *;
    injection Hprev as <-; injection Hnext as <-;
    unfold _write, on_start, end_; simpl; rewrite Hfirst; simpl;
    destruct (StreamArg.ended _); simpl; auto.
Qed.

Lemma first_write_signals :
  snd (_write a (S k) c)
    = if StreamArg.ended prev then [Start (S k)] else [Start (S k); Finish k].
Proof.
  destruct a as [v1 v2 v3]; destruct Hk; subst k; simpl in *;
    injection Hprev as <-; injection Hnext as <-;
    unfold _write, on_start, end_; simpl; rewrite Hfirst; simpl;
    destruct (StreamArg.ended _); simpl; auto.
Qed.

End SequentialBoundary.

(** C2.  Sequential boundary rule: the first [_write] on slot [k + 1]
    (for [k] 1 or 2) leaves slot [k] ended.  If slot [k] had not ended it is
    ended now, with its other fields as they were, and 'finish' fires for
    it; if it had already ended it is left exactly as it was and no second
    'finish' fires.  A [write] on a slot that has not ended is that
    [_write]. *)
Theorem sequential_boundary
    (a : ArgStream.t) (k : nat) (c : chunk) (prev next : StreamArg.t) :
  k = 1 \/ k = 2 ->
  ArgStream.slot a k = Some prev ->
  ArgStream.slot a (S k) = Some next ->
  StreamArg.started next = false ->
  let r := ArgStream._write a (S k) c in
  (exists prev',
      ArgStream.slot (fst r) k = Some prev'
      /\ StreamArg.ended prev' = true
      /\ StreamArg.started prev' = StreamArg.started prev
      /\ StreamArg.written prev' = StreamArg.written prev
      /\ (StreamArg.ended prev = true ->
          prev' = prev /\ ~ In (ArgStream.Finish k) (snd r))
      /\ (StreamArg.ended prev = false -> In (ArgStream.Finish k) (snd r)))
  /\ (StreamArg.ended next = false -> ArgStream.write a (S k) c = r).
Proof.
  intros Hk Hp Hn Hf r.
  destruct (@first_write_slots a k c prev next Hk Hp Hn Hf) as [Hs _].
  pose proof (@first_write_signals a k c prev next Hk Hp Hn Hf) as Hg.
  fold r in Hs, Hg. split.
  - exists (if StreamArg.ended prev then prev else StreamArg.set_ended prev).
    split; [exact Hs|]. rewrite Hg.
    destruct (StreamArg.ended prev) eqn:E; simpl.
    + repeat split; auto; try discriminate.
      intros [Hx|[]]; discriminate.
    + repeat split; auto; discriminate.
  - intros He. unfold ArgStream.write. rewrite Hn, He. reflexivity.
Qed.

Lemma sequential_boundary_witness :
  let a := ArgStream.create in
  let r := ArgStream._write a 2 [x68%byte] in
  (exists prev',
      ArgStream.slot (fst r) 1 = Some prev'
      /\ StreamArg.ended prev' = true
      /\ StreamArg.started prev' = StreamArg.started StreamArg.create
      /\ StreamArg.written prev' = StreamArg.written StreamArg.create
      /\ (StreamArg.ended StreamArg.create = true ->
          prev' = StreamArg.create /\ ~ In (ArgStream.Finish 1) (snd r))
      /\ (StreamArg.ended StreamArg.create = false ->
          In (ArgStream.Finish 1) (snd r)))
  /\ (StreamArg.ended StreamArg.create = false ->
      ArgStream.write a 2 [x68%byte] = r).
Proof.
  apply (@sequential_boundary ArgStream.create 1 [x68%byte]
           StreamArg.create StreamArg.create);
    [left; reflexivity | reflexivity | reflexivity | reflexivity].
Defined.

(** ** InArgStream *)

Section InFacts.

Import InArgStream.

Lemma on_signals_args s gs : args (on_signals s gs) = args s.
Proof.
  unfold on_signals. revert s.
  induction gs as [|g gs IH]; intros s; simpl; [reflexivity|].
  rewrite IH. destruct g; simpl; auto.
  destruct (_numFinished s) as [|[|[|n]]]; reflexivity.
Qed.

Lemma on_signals_iStream s gs : _iStream (on_signals s gs) = _iStream s.
Proof.
  unfold on_signals. revert s.
  induction gs as [|g gs IH]; intros s; simpl; [reflexivity|].
  rewrite IH. destruct g; simpl; auto.
  destruct (_numFinished s) as [|[|[|n]]]; reflexivity.
Qed.

Lemma write_current_iStream s c : _iStream (write_current s c) = _iStream s.
Proof.
  unfold write_current.
  destruct (ArgStream.write (args s) (S (_iStream s)) c) as [a gs].
  now rewrite on_signals_iStream.
Qed.

Lemma advance_iStream s :
  _iStream (advance s) = if _iStream s <? 3 then S (_iStream s) else _iStream s.
Proof.
  unfold advance, streams_length, end_current.
  destruct (_iStream s <? 3); [|reflexivity].
  destruct (ArgStream.end_ (args s) (S (_iStream s))) as [a gs].
  simpl. now rewrite on_signals_iStream.
Qed.

(** The loop breaks exactly when some position of the group falls on an
    exhausted cursor. *)
Lemma frame_loop_broke (parts : list chunk) : forall (first : bool) (s : t),
  let c0 := _iStream (if first then s else advance s) in
  snd (frame_loop first s parts) = true
  <-> exists j, j < length parts /\ 3 <= c0 + j.
Proof.
  induction parts as [|p rest IH]; intros first s c0; simpl.
  - split; [discriminate|]. intros [j [Hj _]]. lia.
  - fold c0. unfold stream_defined, streams_length.
    set (s1 := if first then s else advance s) in *.
    destruct (_iStream s1 <? 3) eqn:E.
    + apply Nat.ltb_lt in E.
      rewrite IH. simpl.
      assert (Hc : _iStream
                (advance (if has_length p then write_current s1 p else s1))
              = S c0).
      { rewrite advance_iStream.
        assert (Hw : _iStream (if has_length p then write_current s1 p else s1)
                     = c0).
        { destruct (has_length p); [apply write_current_iStream|reflexivity]. }
        rewrite Hw. subst c0.
        destruct (_iStream s1 <? 3) eqn:E'; [reflexivity|].
        apply Nat.ltb_ge in E'. lia. }
      rewrite Hc. split.
      * intros [j [Hj Hlt]]. exists (S j). lia.
      * intros [[|j] [Hj Hlt]]; [subst c0; lia|]. exists j. lia.
    + apply Nat.ltb_ge in E. simpl. split; [|reflexivity].
      intros _. exists 0. subst c0. lia.
Qed.


End InFacts.

(** C3 as stated fails on the [null] argument: [handleFrame(null)] on a
    finished stream returns, and leaves the stream as it is. *)
Lemma finished_null_returns :
  let s := fst (InArgStream.handleFrame InArgStream.create None) in
  InArgStream.finished s = true /\ InArgStream.handleFrame s None = (s, InArgStream.Returned).
Proof. split; reflexivity. Qed.

(** C3, amended.  After the stream has finished, every call of
    [handleFrame] with a frame group (an empty one too) throws the
    'arg stream finished' error and changes nothing, and a call with [null]
    returns without an error. *)
Theorem finished_rejects_groups (s : InArgStream.t) (parts : list chunk) :
  InArgStream.finished s = true ->
  InArgStream.handleFrame s (Some parts) = (s, InArgStream.Thrown InArgStream.StreamAlreadyFinished)
  /\ snd (InArgStream.handleFrame s None) = InArgStream.Returned.
Proof.
  intros H. split; [|reflexivity].
  unfold InArgStream.handleFrame. now rewrite H.
Qed.

Lemma finished_rejects_groups_witness :
  let s := fst (InArgStream.handleFrame InArgStream.create None) in
  InArgStream.handleFrame s (Some [[]; [x61%byte]])
    = (s, InArgStream.Thrown InArgStream.StreamAlreadyFinished)
  /\ snd (InArgStream.handleFrame s None) = InArgStream.Returned.
Proof.
  apply (@finished_rejects_groups (fst (InArgStream.handleFrame InArgStream.create None))
           [[]; [x61%byte]]).
  reflexivity.
Defined.

(** C4.  Arity violation: on a stream that has not finished, when some
    position [j] of the frame group falls on an exhausted cursor (the
    cursor starts at [_iStream] and moves by one per position),
    [handleFrame] throws the 'frame parts exceeded stream arity' error; and
    when no position does, it returns. *)
Theorem arity_violation (s : InArgStream.t) (parts : list chunk) :
  InArgStream.finished s = false ->
  ((exists j, j < length parts /\ InArgStream.streams_length <= InArgStream._iStream s + j) ->
   snd (InArgStream.handleFrame s (Some parts)) = InArgStream.Thrown InArgStream.FrameArityExceeded)
  /\ ((forall j, j < length parts -> InArgStream._iStream s + j < InArgStream.streams_length) ->
      snd (InArgStream.handleFrame s (Some parts)) = InArgStream.Returned).
Proof.
  intros Hf. unfold InArgStream.handleFrame. rewrite Hf.
  pose proof (frame_loop_broke parts true s) as Hb. simpl in Hb.
  destruct (InArgStream.frame_loop true s parts) as [s1 broke]. simpl in *.
  unfold InArgStream.streams_length. split.
  - intros Hex. apply Hb in Hex. now subst broke.
  - intros Hall. destruct broke; [|reflexivity].
    destruct Hb as [Hb _]. destruct (Hb eq_refl) as [j [Hj Hlt]].
    specialize (Hall j Hj). lia.
Qed.

Lemma arity_violation_witness :
  ((exists j, j < length [[x61%byte]; []; []; [x62%byte]]
              /\ InArgStream.streams_length <= InArgStream._iStream InArgStream.create + j) ->
   snd (InArgStream.handleFrame InArgStream.create (Some [[x61%byte]; []; []; [x62%byte]]))
     = InArgStream.Thrown InArgStream.FrameArityExceeded)
  /\ ((forall j, j < length [[x61%byte]; []; []; [x62%byte]] ->
                 InArgStream._iStream InArgStream.create + j < InArgStream.streams_length) ->
      snd (InArgStream.handleFrame InArgStream.create (Some [[x61%byte]; []; []; [x62%byte]]))
        = InArgStream.Returned).
Proof.
  apply (@arity_violation InArgStream.create [[x61%byte]; []; []; [x62%byte]]).
  reflexivity.
Defined.

(** *** Frame groups on a clean inbound state *)

Section InClean.

Import InArgStream.

Ltac open_state s :=
  destruct s as [[[s1 e1 w1] [s2 e2 w2] [s3 e3 w3]] c f n ev];
  unfold in_clean, slot_ended in *; simpl in *.

Ltac conjs :=
  match goal with
  | |- _ /\ _ => split; [|conjs]
  | _ => idtac
  end.

Ltac cursor_cases c :=
  destruct c as [|[|[|c]]]; simpl in *; try discriminate; try lia.

Lemma concat_snoc (w : list chunk) (p : chunk) :
  concat (w ++ [p]) = concat w ++ p.
Proof. rewrite concat_app. simpl. now rewrite app_nil_r. Qed.

Lemma advance_clean s :
  in_clean s = true -> _iStream s < 3 ->
  in_clean (advance s) = true
  /\ _iStream (advance s) = S (_iStream s)
  /\ (forall k, slot_bytes (advance s) k = slot_bytes s k)
  /\ _numFinished (advance s) = S (_numFinished s)
  /\ finished (advance s)
     = (if S (_numFinished s) =? 3 then true else finished s).
Proof.
  intros Hc Hlt. open_state s. cursor_cases c;
    destruct e1, e2, e3; try discriminate;
    unfold advance, end_current, ArgStream.end_; simpl;
    (destruct n as [|[|[|n]]]; simpl; repeat split; auto;
     intros [|[|[|[|k]]]]; reflexivity).
Qed.

Lemma write_clean s p :
  in_clean s = true -> _iStream s < 3 ->
  in_clean (write_current s p) = true
  /\ _iStream (write_current s p) = _iStream s
  /\ (forall k, slot_bytes (write_current s p) k
                = slot_bytes s k ++ (if k =? S (_iStream s) then p else []))
  /\ _numFinished (write_current s p) = _numFinished s
  /\ finished (write_current s p) = finished s.
Proof.
  intros Hc Hlt. open_state s. cursor_cases c;
    destruct e1, e2, e3; try discriminate;
    unfold write_current, ArgStream.write, ArgStream._write; simpl;
    [destruct s1 | destruct s2 | destruct s3]; simpl;
    (repeat split; auto;
     intros [|[|[|[|k]]]]; unfold slot_bytes, StreamArg.bytes; simpl;
     rewrite ?concat_snoc, ?app_nil_r; reflexivity).
Qed.

(** One position of the group: [if (parts[i].length) stream.write(parts[i])]. *)
Lemma consume_clean s p :
  in_clean s = true -> _iStream s < 3 ->
  let s' := if has_length p then write_current s p else s in
  in_clean s' = true
  /\ _iStream s' = _iStream s
  /\ (forall k, slot_bytes s' k
                = slot_bytes s k ++ (if k =? S (_iStream s) then p else []))
  /\ _numFinished s' = _numFinished s
  /\ finished s' = finished s.
Proof.
  intros Hc Hlt. destruct p as [|b p]; simpl.
  - repeat split; auto. intros k.
    destruct (k =? S (_iStream s)); now rewrite app_nil_r.
  - now apply write_clean.
Qed.

Lemma part_for_cons c p rest k :
  part_for c (p :: rest) k
  = (if k =? S c then p else []) ++ part_for (S c) rest k.
Proof.
  unfold part_for.
  destruct (k =? S c) eqn:E1.
  - apply Nat.eqb_eq in E1. subst k.
    replace (c <? S c) with true by (symmetry; apply Nat.ltb_lt; lia).
    replace (S c <? S c) with false by (symmetry; apply Nat.ltb_ge; lia).
    replace (S c - 1 - c) with 0 by lia. simpl. now rewrite app_nil_r.
  - apply Nat.eqb_neq in E1. simpl.
    destruct (c <? k) eqn:E2.
    + apply Nat.ltb_lt in E2.
      replace (S c <? k) with true by (symmetry; apply Nat.ltb_lt; lia).
      replace (k - 1 - c) with (S (k - 1 - S c)) by lia. reflexivity.
    + apply Nat.ltb_ge in E2.
      replace (S c <? k) with false by (symmetry; apply Nat.ltb_ge; lia).
      reflexivity.
Qed.

Lemma part_for_nil c k : part_for c [] k = [].
Proof. unfold part_for. destruct (c <? k); [|reflexivity]. now destruct (k - 1 - c). Qed.

Lemma part_for_behind c parts k : k <= c -> part_for c parts k = [].
Proof.
  intros H. unfold part_for.
  replace (c <? k) with false by (symmetry; apply Nat.ltb_ge; lia).
  reflexivity.
Qed.

Local Arguments Nat.min : simpl never.
Local Arguments Nat.leb : simpl never.
Local Arguments Nat.ltb : simpl never.
Local Arguments Nat.eqb : simpl never.

Lemma clean_cursor s : in_clean s = true -> _iStream s <= 3.
Proof.
  unfold in_clean. rewrite !andb_true_iff.
  intros [[[H _] _] _]. now apply Nat.leb_le in H.
Qed.

(** The positions after the first: each one advances, then consumes. *)
Lemma frame_loop_next (parts : list chunk) : forall s : t,
  in_clean s = true ->
  let r := frame_loop false s parts in
  in_clean (fst r) = true
  /\ _iStream (fst r) = Nat.min 3 (_iStream s + length parts)
  /\ (snd r = true <-> parts <> [] /\ 3 <= _iStream s + length parts)
  /\ (forall k, k <= 3 ->
        slot_bytes (fst r) k = slot_bytes s k ++ part_for (S (_iStream s)) parts k)
  /\ _numFinished (fst r) + _iStream s = _numFinished s + _iStream (fst r)
  /\ (_numFinished s = _iStream s -> finished s = false -> _iStream s < 3 ->
      finished (fst r) = (3 <=? _iStream (fst r))).
Proof.
  induction parts as [|p rest IH]; intros s Hc r.
  - subst r. simpl. pose proof (clean_cursor _ Hc) as Hle. conjs.
    + assumption.
    + lia.
    + split; [discriminate|]. intros [H _]. now elim H.
    + intros k _. now rewrite part_for_nil, app_nil_r.
    + reflexivity.
    + intros _ Hf Hlt. rewrite Hf. symmetry. apply Nat.leb_gt. lia.
  - pose proof (clean_cursor _ Hc) as Hle.
    subst r. simpl. unfold stream_defined, streams_length.
    destruct (Nat.eq_dec (_iStream s) 3) as [E3|E3].
    + (* the cursor is already exhausted *)
      assert (Ha : advance s = s).
      { unfold advance, streams_length. rewrite E3. reflexivity. }
      rewrite Ha, E3. simpl. rewrite E3. conjs.
      * assumption.
      * reflexivity.
      * split; [|reflexivity]. intros _. split; [discriminate|lia].
      * intros k Hk. rewrite part_for_behind by lia. now rewrite app_nil_r.
      * reflexivity.
      * lia.
    + destruct (advance_clean s Hc) as (Hc1 & Hi1 & Hb1 & Hn1 & Hf1); [lia|].
      destruct (_iStream (advance s) <? 3) eqn:E.
      * apply Nat.ltb_lt in E.
        destruct (consume_clean (advance s) p Hc1 E)
          as (Hc2 & Hi2 & Hb2 & Hn2 & Hf2).
        set (s2 := if has_length p then write_current (advance s) p
                   else advance s) in *.
        destruct (IH s2 Hc2) as (Hc3 & Hi3 & Hs3 & Hb3 & Hn3 & Hf3).
        rewrite Hi2, Hi1 in *. conjs.
        -- assumption.
        -- rewrite Hi3. simpl. lia.
        -- split.
           ++ intros H. apply Hs3 in H. split; [discriminate|simpl; lia].
           ++ intros [_ H]. apply Hs3. split; [|simpl in H; lia].
              intros ->. simpl in H. lia.
        -- intros k Hk. rewrite Hb3 by exact Hk. rewrite Hb2, Hb1.
           rewrite <- app_assoc. f_equal. symmetry. apply part_for_cons.
        -- lia.
        -- intros Hn Hf Hlt. apply Hf3; [lia| |lia].
           rewrite Hf2, Hf1, Hf.
           destruct (S (_numFinished s) =? 3) eqn:E'; [|reflexivity].
           apply Nat.eqb_eq in E'. lia.
      * apply Nat.ltb_ge in E. simpl. rewrite Hi1 in *. conjs.
        -- assumption.
        -- simpl. lia.
        -- split; [|reflexivity]. intros _. split; [discriminate|simpl; lia].
        -- intros k Hk. rewrite Hb1, part_for_behind by lia.
           now rewrite app_nil_r.
        -- lia.
        -- intros Hn Hf Hlt. rewrite Hf1.
           replace (S (_numFinished s) =? 3) with true
             by (symmetry; apply Nat.eqb_eq; lia).
           symmetry. apply Nat.leb_le. lia.
Qed.

(** A whole group on a clean state that has not finished: the part at
    position [j] lands on slot [_iStream + j + 1], every slot the cursor
    crosses is ended, and the call throws exactly when the group has more
    positions than slots are left. *)
Lemma handleFrame_clean (s : t) (parts : list chunk) :
  in_clean s = true -> finished s = false ->
  let r := handleFrame s (Some parts) in
  in_clean (fst r) = true
  /\ _iStream (fst r) = Nat.min 3 (_iStream s + (length parts - 1))
  /\ snd r = (if 3 <? _iStream s + length parts
              then Thrown FrameArityExceeded else Returned)
  /\ (forall k, k <= 3 ->
        slot_bytes (fst r) k = slot_bytes s k ++ part_for (_iStream s) parts k)
  /\ (_numFinished s = _iStream s -> _iStream s < 3 ->
      _numFinished (fst r) = _iStream (fst r)
      /\ finished (fst r) = (3 <=? _iStream (fst r))).
Proof.
  intros Hc Hf r. subst r. unfold handleFrame. rewrite Hf.
  pose proof (clean_cursor _ Hc) as Hle.
  destruct parts as [|p rest].
  - simpl. replace (3 <? _iStream s + 0) with false
      by (symmetry; apply Nat.ltb_ge; lia).
    conjs.
    + assumption.
    + lia.
    + reflexivity.
    + intros k _. now rewrite part_for_nil, app_nil_r.
    + intros Hn Hlt. split; [assumption|].
      rewrite Hf. symmetry. apply Nat.leb_gt. lia.
  - simpl frame_loop. unfold stream_defined, streams_length.
    destruct (_iStream s <? 3) eqn:E.
    + apply Nat.ltb_lt in E.
      destruct (consume_clean s p Hc E) as (Hc2 & Hi2 & Hb2 & Hn2 & Hf2).
      set (s2 := if has_length p then write_current s p else s) in *.
      destruct (frame_loop_next rest s2 Hc2) as (Hc3 & Hi3 & Hs3 & Hb3 & Hn3 & Hf3).
      destruct (frame_loop false s2 rest) as [s3 broke]. simpl in *.
      rewrite Hi2 in *.
      assert (Hbk : broke = (3 <? _iStream s + S (length rest))).
      { destruct broke.
        - destruct Hs3 as [Hs3 _]. destruct (Hs3 eq_refl).
          symmetry. apply Nat.ltb_lt. lia.
        - symmetry. apply Nat.ltb_ge.
          destruct (le_gt_dec (_iStream s + S (length rest)) 3); [assumption|].
          destruct Hs3 as [_ Hs3]. exfalso.
          assert (false = true); [|discriminate].
          apply Hs3. split; [|lia]. intros ->. simpl in *. lia. }
      rewrite <- Hbk.
      assert (Hr : fst (if broke then (s3, Thrown FrameArityExceeded)
                        else (s3, Returned)) = s3) by now destruct broke.
      rewrite Hr. conjs.
      * assumption.
      * rewrite Hi3. lia.
      * now destruct broke.
      * intros k Hk. rewrite Hb3 by exact Hk. rewrite Hb2.
        rewrite <- app_assoc. f_equal. symmetry. apply part_for_cons.
      * intros Hn Hlt. split; [lia|].
        apply Hf3; [lia| |assumption]. now rewrite Hf2.
    + apply Nat.ltb_ge in E. assert (E3 : _iStream s = 3) by lia.
      simpl. rewrite E3. simpl. conjs.
      * assumption.
      * reflexivity.
      * reflexivity.
      * intros k Hk. rewrite part_for_behind by lia. now rewrite app_nil_r.
      * lia.
Qed.

End InClean.

Lemma clean_ended (s : InArgStream.t) (k : nat) :
  in_clean s = true -> 1 <= k <= 3 ->
  InArgStream.slot_ended s k = (k <=? InArgStream._iStream s).
Proof.
  unfold in_clean. rewrite !andb_true_iff.
  intros [[[_ H1] H2] H3] Hk.
  apply Bool.eqb_prop in H1, H2, H3.
  destruct k as [|[|[|[|k]]]]; try lia; assumption.
Qed.

(** C10.  The arity failure is not atomic.  When [handleFrame] throws the
    arity error on a group with more positions than slots are left, the
    cursor is exhausted, every slot from the one under the cursor on has
    been ended by this call and holds the part of the group at its
    position after what it held before; the state before the call is not
    put back. *)
Theorem arity_failure_not_atomic (s : InArgStream.t) (parts : list chunk) :
  in_clean s = true ->
  InArgStream.finished s = false ->
  3 < InArgStream._iStream s + length parts ->
  let r := InArgStream.handleFrame s (Some parts) in
  snd r = InArgStream.Thrown InArgStream.FrameArityExceeded
  /\ InArgStream._iStream (fst r) = 3
  /\ (forall k, InArgStream._iStream s < k <= 3 ->
        InArgStream.slot_ended s k = false
        /\ InArgStream.slot_ended (fst r) k = true
        /\ InArgStream.slot_bytes (fst r) k
           = InArgStream.slot_bytes s k ++ nth (k - 1 - InArgStream._iStream s) parts [])
  /\ (InArgStream._iStream s < 3 -> fst r <> s).
Proof.
  intros Hc Hf Hlen r.
  destruct (handleFrame_clean s parts Hc Hf) as (Hc' & Hi & Ho & Hb & _).
  fold r in Hc', Hi, Ho, Hb.
  pose proof (clean_cursor _ Hc) as Hle.
  assert (Hi3 : InArgStream._iStream (fst r) = 3) by (rewrite Hi; lia).
  split; [|split; [|split]].
  - rewrite Ho. apply Nat.ltb_lt in Hlen. now rewrite Hlen.
  - exact Hi3.
  - intros k Hk. split; [|split].
    + rewrite (clean_ended s) by (auto; lia). apply Nat.leb_gt. lia.
    + rewrite (clean_ended (fst r)) by (auto; lia). rewrite Hi3.
      apply Nat.leb_le. lia.
    + rewrite Hb by lia. unfold part_for.
      replace (InArgStream._iStream s <? k) with true
        by (symmetry; apply Nat.ltb_lt; lia).
      reflexivity.
  - intros Hlt E. rewrite E in Hi3. lia.
Qed.

Lemma arity_failure_not_atomic_witness :
  let parts := [[x61%byte]; []; [x62%byte]; [x63%byte]] in
  let r := InArgStream.handleFrame InArgStream.create (Some parts) in
  snd r = InArgStream.Thrown InArgStream.FrameArityExceeded
  /\ InArgStream._iStream (fst r) = 3
  /\ (forall k, InArgStream._iStream InArgStream.create < k <= 3 ->
        InArgStream.slot_ended InArgStream.create k = false
        /\ InArgStream.slot_ended (fst r) k = true
        /\ InArgStream.slot_bytes (fst r) k
           = InArgStream.slot_bytes InArgStream.create k
             ++ nth (k - 1 - InArgStream._iStream InArgStream.create) parts [])
  /\ (InArgStream._iStream InArgStream.create < 3 -> fst r <> InArgStream.create).
Proof.
  apply (@arity_failure_not_atomic InArgStream.create
           [[x61%byte]; []; [x62%byte]; [x63%byte]]);
    [reflexivity | reflexivity | simpl; lia].
Defined.

(** ** OutArgStream *)

Section OutBasics.

Import OutArgStream.

Lemma set_flushImmed_same s : set_flushImmed s (_flushImmed s) = s.
Proof. now destruct s. Qed.

Lemma set_frame_same s : set_frame s (frame s) = s.
Proof. now destruct s. Qed.

Lemma set_cursor_same s : set_cursor s (currentArgN s) (frame s) = s.
Proof. now destruct s. Qed.

Lemma clear_flushImmed s :
  (if _flushImmed s then set_flushImmed s false else s) = set_flushImmed s false.
Proof. destruct s as [[] ? ? ? ? ? ? ? ?]; reflexivity. Qed.

Lemma nth_error_last (pre : list chunk) (buf : chunk) :
  nth_error (pre ++ [buf]) (length pre) = Some buf.
Proof. induction pre; simpl; auto. Qed.

Lemma array_put_last (pre : list chunk) (buf v : chunk) :
  array_put (pre ++ [buf]) (length pre) v = pre ++ [v].
Proof. induction pre; simpl; [reflexivity|]. now rewrite IHpre. Qed.

Lemma has_length_false (c : chunk) : has_length c = false -> c = [].
Proof. destruct c; [reflexivity|discriminate]. Qed.

(** [_appendFrameChunk] joins the chunk to the last chunk of the frame. *)
Lemma append_last s pre buf c :
  frame s = pre ++ [buf] ->
  _appendFrameChunk s c = Some (set_frame s (pre ++ [buf ++ c])).
Proof.
  intros Hfr. unfold _appendFrameChunk. rewrite Hfr.
  rewrite length_app, Nat.add_comm. simpl.
  rewrite nth_error_last, !array_put_last.
  destruct (has_length buf) eqn:Eb.
  - destruct (has_length c) eqn:Ec; [reflexivity|].
    apply has_length_false in Ec. subst c.
    rewrite app_nil_r. f_equal. destruct s; unfold set_frame; simpl in *.
    now rewrite Hfr.
  - apply has_length_false in Eb. now subst buf.
Qed.

Lemma repeat_snoc (m : nat) : repeat ([] : chunk) m ++ [[]] = repeat [] (S m).
Proof. induction m; simpl; [reflexivity|]. now rewrite IHm. Qed.

(** The padding loop stops with the cursor at [n], one placeholder
    pushed for each slot skipped. *)
Lemma pad_loop_spec : forall fuel cur n fr,
  cur < n -> n - cur <= fuel ->
  pad_loop fuel cur n fr = (n, fr ++ repeat [] (n - cur - 1)).
Proof.
  induction fuel as [|f IH]; intros cur n fr Hlt Hfuel; [lia|].
  simpl. destruct (S cur <? n) eqn:E.
  - apply Nat.ltb_lt in E. rewrite IH by lia.
    rewrite <- app_assoc. f_equal. f_equal.
    replace (n - cur - 1) with (S (n - S cur - 1)) by lia.
    simpl. change ([] :: repeat [] (n - S cur - 1))
      with (repeat ([] : chunk) (S (n - S cur - 1))).
    rewrite <- repeat_snoc. simpl.
    clear. induction (n - S cur - 1); simpl; [reflexivity|]. now f_equal.
  - apply Nat.ltb_ge in E. replace (n - cur - 1) with 0 by lia.
    simpl. rewrite app_nil_r. f_equal. lia.
Qed.

(** The auto-advance loop stops at the first index from the cursor on
    whose flag is not set, and pushes a placeholder for each step that
    lands on an index up to 3. *)
Lemma advance_loop_spec : forall fuel e cur fr,
  length e <= cur + fuel ->
  let r := advance_loop fuel e cur fr in
  cur <= fst r
  /\ nth (fst r) e false = false
  /\ (forall k, cur <= k < fst r -> nth k e false = true)
  /\ snd r = fr ++ repeat [] (Nat.min (fst r) 3 - Nat.min cur 3).
Proof.
  induction fuel as [|f IH]; intros e cur fr Hfuel; cbn [advance_loop].
  - cbn [fst snd]. split; [lia|]. split; [apply nth_overflow; lia|].
    split; [intros k Hk; lia|].
    rewrite Nat.sub_diag. simpl. now rewrite app_nil_r.
  - destruct (nth cur e false) eqn:E.
    + cbv zeta.
      set (fr1 := if S cur <=? 3 then fr ++ [[]] else fr).
      destruct (IH e (S cur) fr1) as (H1 & H2 & H3 & H4); [lia|].
      set (r := advance_loop f e (S cur) fr1) in *.
      split; [lia|]. split; [exact H2|]. split.
      * intros k Hk. destruct (Nat.eq_dec k cur) as [->|Hne]; [exact E|].
        apply H3. lia.
      * rewrite H4. subst fr1.
        destruct (S cur <=? 3) eqn:E3.
        -- apply Nat.leb_le in E3. rewrite <- app_assoc. f_equal.
           replace (Nat.min (fst r) 3 - Nat.min cur 3)
             with (S (Nat.min (fst r) 3 - Nat.min (S cur) 3)) by lia.
           reflexivity.
        -- apply Nat.leb_gt in E3. f_equal. f_equal. lia.
    + cbn [fst snd]. split; [lia|]. split; [exact E|].
      split; [intros k Hk; lia|].
      rewrite Nat.sub_diag. simpl. now rewrite app_nil_r.
Qed.

Lemma auto_advance_idle s :
  is_ended s (currentArgN s) = false -> auto_advance s = s.
Proof.
  unfold auto_advance, is_ended. intros H.
  destruct (length (ended s)); simpl; [|rewrite H]; apply set_cursor_same.
Qed.

End OutBasics.

(** C5.  Out-of-order rejection: a data chunk for an argument index below
    [currentArgN] is answered with the [ArgChunkOutOfOrder] error carrying
    the cursor as [current] and the index as [got]; the pending frame, the
    cursor, the ended flags and every other field stay as they were. *)
Theorem out_of_order_rejected (s : OutArgStream.t) (n : nat) (c : chunk) :
  n < OutArgStream.currentArgN s ->
  exists s',
    OutArgStream._handleFrameChunk s n (Some c) = Some s'
    /\ OutArgStream.errors s'
       = OutArgStream.errors s
         ++ [OutArgStream.OutOfOrder (OutArgStream.currentArgN s) n c]
    /\ OutArgStream.frame s' = OutArgStream.frame s
    /\ OutArgStream.currentArgN s' = OutArgStream.currentArgN s
    /\ OutArgStream.ended s' = OutArgStream.ended s
    /\ OutArgStream.frames s' = OutArgStream.frames s
    /\ OutArgStream.finished s' = OutArgStream.finished s
    /\ OutArgStream.paused s' = OutArgStream.paused s
    /\ OutArgStream._flushImmed s' = OutArgStream._flushImmed s.
Proof.
  intros H. unfold OutArgStream._handleFrameChunk.
  apply Nat.ltb_lt in H. rewrite H.
  eexists. split; [reflexivity|]. simpl. repeat split.
Qed.

Lemma out_of_order_rejected_witness :
  exists s0 s',
    OutArgStream.run OutArgStream.create [OutArgStream.Data N2 [x65%byte]] = Some s0
    /\ OutArgStream._handleFrameChunk s0 1 (Some [x68%byte]) = Some s'
    /\ OutArgStream.errors s'
       = OutArgStream.errors s0
         ++ [OutArgStream.OutOfOrder (OutArgStream.currentArgN s0) 1 [x68%byte]]
    /\ OutArgStream.frame s' = OutArgStream.frame s0
    /\ OutArgStream.currentArgN s' = OutArgStream.currentArgN s0
    /\ OutArgStream.ended s' = OutArgStream.ended s0
    /\ OutArgStream.frames s' = OutArgStream.frames s0
    /\ OutArgStream.finished s' = OutArgStream.finished s0
    /\ OutArgStream.paused s' = OutArgStream.paused s0
    /\ OutArgStream._flushImmed s' = OutArgStream._flushImmed s0.
Proof.
  eexists. 
  destruct (@out_of_order_rejected
              (OutArgStream.mk true false [[]; [x65%byte]] 2 [false; false; false; false]
                 false [] [] 0) 1 [x68%byte]) as [s' H];
    [simpl; lia|].
  exists s'. split; [reflexivity|]. exact H.
Defined.

(** C7 as stated fails at the boundary: when slot 3 ends with the cursor
    at 3, the cursor moves to 4 and the pending frame gains no placeholder,
    where the loop of the claim pushes one. *)
Lemma auto_advance_boundary :
  exists s s',
    OutArgStream.run OutArgStream.create [OutArgStream.Data N3 [x78%byte]] = Some s
    /\ OutArgStream.currentArgN s = 3
    /\ OutArgStream._handleFrameChunk s 3 None = Some s'
    /\ OutArgStream.currentArgN s' = 4
    /\ OutArgStream.frame s' = OutArgStream.frame s
    /\ OutArgStream.frame (OutArgStream.auto_advance (OutArgStream.set_ended s 3))
       = [[]; []; [x78%byte]]
    /\ OutArgStream.frame (spec_auto_advance (OutArgStream.set_ended s 3))
       = [[]; []; [x78%byte]; []].
Proof.
  eexists. eexists. split; [reflexivity|]. split; [reflexivity|].
  split; [reflexivity|]. repeat split.
Qed.

(** C7, amended.  The auto-advance loop runs while [ended[currentArgN]] is
    set.  It stops at the first index from the cursor on whose flag is not
    set; each step increments the cursor, and pushes an empty placeholder
    only when the incremented cursor is at most 3.  So the pending frame
    gains [min c' 3 - min c 3] placeholders when the cursor goes from [c]
    to [c']; nothing else changes. *)
Theorem auto_advance_placeholders (s : OutArgStream.t) :
  let s' := OutArgStream.auto_advance s in
  OutArgStream.currentArgN s <= OutArgStream.currentArgN s'
  /\ OutArgStream.is_ended s (OutArgStream.currentArgN s') = false
  /\ (forall k, OutArgStream.currentArgN s <= k < OutArgStream.currentArgN s' ->
                OutArgStream.is_ended s k = true)
  /\ OutArgStream.frame s'
     = OutArgStream.frame s
       ++ repeat [] (Nat.min (OutArgStream.currentArgN s') 3
                     - Nat.min (OutArgStream.currentArgN s) 3)
  /\ OutArgStream.ended s' = OutArgStream.ended s
  /\ OutArgStream.frames s' = OutArgStream.frames s
  /\ OutArgStream.finished s' = OutArgStream.finished s.
Proof.
  intros s'. subst s'. unfold OutArgStream.auto_advance, OutArgStream.is_ended.
  destruct (advance_loop_spec (length (OutArgStream.ended s)) (OutArgStream.ended s)
              (OutArgStream.currentArgN s) (OutArgStream.frame s)) as (H1 & H2 & H3 & H4); [lia|].
  destruct (OutArgStream.advance_loop _ _ _ _) as [cur fr]. simpl in *.
  repeat split; auto.
Qed.

Section OutFlush.

Import OutArgStream.

Lemma nth_array_set : forall (l : list bool) (n k : nat) (v : bool),
  nth k (array_set l n v) false = if k =? n then v else nth k l false.
Proof.
  intros l n. revert l.
  induction n as [|n IH]; intros l k v.
  - destruct l, k; simpl; auto. now destruct k.
  - destruct l as [|x l], k; simpl; auto.
    rewrite IH. destruct (k =? n); [reflexivity|]. now destruct k.
Qed.

Lemma is_ended_set s n k :
  is_ended (set_ended s n) k = if k =? n then true else is_ended s k.
Proof. unfold is_ended, set_ended. simpl. apply nth_array_set. Qed.

Lemma maybeFlush_cond s :
  finished s && is_ended s 1 && is_ended s 2 && is_ended s 3
  = finished s && all_ended s.
Proof. unfold all_ended. now rewrite !andb_assoc. Qed.

Lemma not_all_ended s n :
  1 <= n <= 3 -> is_ended s n = false -> all_ended s = false.
Proof.
  intros Hn He. unfold all_ended.
  destruct n as [|[|[|[|n]]]]; try lia; rewrite He;
    rewrite ?andb_false_r; reflexivity.
Qed.

(** What [_flushParts] does, by case. *)
Lemma flushParts_paused s b :
  paused s = true ->
  view (_flushParts s b) = view s /\ _flushImmed (_flushParts s b) = false.
Proof.
  intros Hp. unfold _flushParts. rewrite clear_flushImmed. simpl.
  rewrite Hp. split; reflexivity.
Qed.

Lemma flushParts_swallowed s :
  finished s = true ->
  view (_flushParts s false) = view s /\ _flushImmed (_flushParts s false) = false.
Proof.
  intros Hf. unfold _flushParts. rewrite clear_flushImmed. simpl.
  rewrite Hf. destruct (paused s); split; reflexivity.
Qed.

Lemma flushParts_emits s b :
  paused s = false -> finished s && negb b = false -> frame s <> [] ->
  view (_flushParts s b)
  = ([[]], currentArgN s, ended s, finished s, paused s,
     frames s ++ [(frame s, b)], errors s)
  /\ _flushImmed (_flushParts s b) = false.
Proof.
  intros Hp Hf Hfr. unfold _flushParts. rewrite clear_flushImmed. simpl.
  rewrite Hp, Hf. destruct (frame s) as [|f0 fr] eqn:E; [now elim Hfr|].
  simpl. unfold view. simpl. rewrite ?E, ?Hp. split; reflexivity.
Qed.

(** What [_maybeFlush] does on a frame that is not empty: the last flush
    when the pair has finished and all three flags are set, else at most a
    deferred flush is asked for. *)
Lemma maybeFlush_last s :
  finished s && all_ended s = true ->
  _maybeFlush s = Some (_flushParts s true).
Proof. intros H. unfold _maybeFlush. now rewrite maybeFlush_cond, H. Qed.

Lemma maybeFlush_defer s :
  finished s && all_ended s = false -> frame s <> [] ->
  exists s',
    _maybeFlush s = Some s'
    /\ view s' = view s
    /\ _flushImmed s'
       = (if has_content (frame s)
          then _flushImmed s || negb (paused s) else _flushImmed s).
Proof.
  intros H Hfr. unfold _maybeFlush. rewrite maybeFlush_cond, H.
  destruct (frame s) as [|f0 fr] eqn:E; [now elim Hfr|].
  unfold has_content. cbn [hd].
  destruct ((1 <? length (f0 :: fr)) || has_length f0).
  - eexists. split; [reflexivity|]. unfold _deferFlushParts.
    destruct (_flushImmed s) eqn:Ei, (paused s) eqn:Ep; simpl;
      split; auto; unfold view; simpl; rewrite ?E, ?Ep; reflexivity.
  - eexists. split; [reflexivity|]. split; reflexivity.
Qed.

End OutFlush.

Section OutHandlers.

Import OutArgStream.

Ltac view_eqs H :=
  unfold view in H; injection H as ? ? ? ? ? ? ?.

Lemma auto_advance_spec (s : t) :
  currentArgN s <= currentArgN (auto_advance s)
  /\ is_ended s (currentArgN (auto_advance s)) = false
  /\ (forall k, currentArgN s <= k < currentArgN (auto_advance s) ->
                is_ended s k = true)
  /\ frame (auto_advance s)
     = frame s
       ++ repeat [] (Nat.min (currentArgN (auto_advance s)) 3
                     - Nat.min (currentArgN s) 3)
  /\ ended (auto_advance s) = ended s
  /\ frames (auto_advance s) = frames s
  /\ finished (auto_advance s) = finished s
  /\ paused (auto_advance s) = paused s
  /\ errors (auto_advance s) = errors s
  /\ _flushImmed (auto_advance s) = _flushImmed s.
Proof.
  unfold auto_advance, is_ended.
  destruct (advance_loop_spec (length (ended s)) (ended s)
              (currentArgN s) (frame s)) as (H1 & H2 & H3 & H4); [lia|].
  destruct (advance_loop _ _ _ _) as [cur fr]. simpl in *.
  repeat split; auto.
Qed.

Lemma with_chunk_not_nil fr cur n c : with_chunk fr cur n c <> [].
Proof.
  unfold with_chunk. destruct (cur <? n); intros H;
    apply app_eq_nil in H; destruct H as [_ H];
    try (apply app_eq_nil in H; destruct H as [_ H]); discriminate.
Qed.

(** A data chunk for a slot at or after the cursor whose flag is not set:
    it is taken into the pending frame, the cursor is at its slot, nothing
    is emitted, and a deferred flush is asked for. *)
Lemma handle_data s n c :
  frame s <> [] -> currentArgN s <= n -> 1 <= n <= 3 ->
  is_ended s n = false ->
  exists s',
    _handleFrameChunk s n (Some c) = Some s'
    /\ view s' = (with_chunk (frame s) (currentArgN s) n c, n, ended s,
                  finished s, paused s, frames s, errors s)
    /\ _flushImmed s'
       = (if has_content (with_chunk (frame s) (currentArgN s) n c)
          then _flushImmed s || negb (paused s) else _flushImmed s).
Proof.
  intros Hfr Hle Hn He. unfold _handleFrameChunk.
  replace (n <? currentArgN s) with false by (symmetry; apply Nat.ltb_ge; lia).
  assert (Hsettle : forall s1,
    frame s1 = with_chunk (frame s) (currentArgN s) n c ->
    currentArgN s1 = n -> ended s1 = ended s -> finished s1 = finished s ->
    paused s1 = paused s -> frames s1 = frames s -> errors s1 = errors s ->
    _flushImmed s1 = _flushImmed s ->
    exists s',
      settle s1 = Some s'
      /\ view s' = (with_chunk (frame s) (currentArgN s) n c, n, ended s,
                    finished s, paused s, frames s, errors s)
      /\ _flushImmed s'
         = (if has_content (with_chunk (frame s) (currentArgN s) n c)
            then _flushImmed s || negb (paused s) else _flushImmed s)).
  { intros s1 H1 H2 H3 H4 H5 H6 H7 H8. unfold settle.
    assert (He1 : is_ended s1 (currentArgN s1) = false).
    { unfold is_ended in *. now rewrite H2, H3. }
    rewrite (auto_advance_idle s1 He1).
    destruct (maybeFlush_defer s1) as (s' & Hs' & Hv & Hi).
    - rewrite (not_all_ended s1 n Hn); [apply andb_false_r|].
      unfold is_ended in *. now rewrite H3.
    - rewrite H1. apply with_chunk_not_nil.
    - exists s'. split; [exact Hs'|]. split.
      + rewrite Hv. unfold view. now rewrite H1, H2, H3, H4, H5, H6, H7.
      + now rewrite Hi, H1, H5, H8. }
  destruct (currentArgN s <? n) eqn:E.
  - apply Nat.ltb_lt in E. rewrite pad_loop_spec by lia.
    apply Hsettle; simpl; auto.
    unfold with_chunk. apply Nat.ltb_lt in E. rewrite E.
    now rewrite <- app_assoc.
  - apply Nat.ltb_ge in E.
    assert (Hsplit : frame s = removelast (frame s) ++ [last (frame s) []])
      by (now apply app_removelast_last).
    rewrite (append_last s _ _ c Hsplit).
    apply Hsettle; simpl; auto; try lia.
    unfold with_chunk.
    replace (currentArgN s <? n) with false
      by (symmetry; apply Nat.ltb_ge; lia).
    reflexivity.
Qed.

Lemma handle_end_other s n :
  n <> currentArgN s -> _handleFrameChunk s n None = Some (set_ended s n).
Proof.
  intros Hne. unfold _handleFrameChunk.
  destruct (n <? currentArgN s) eqn:E1; [reflexivity|].
  destruct (currentArgN s <? n) eqn:E2; [reflexivity|].
  apply Nat.ltb_ge in E1, E2. lia.
Qed.

Lemma handle_end_current s :
  _handleFrameChunk s (currentArgN s) None
  = settle (set_ended s (currentArgN s)).
Proof. unfold _handleFrameChunk. now rewrite Nat.ltb_irrefl. Qed.

Lemma concat_placeholders (fr : list chunk) (m : nat) :
  concat (fr ++ repeat [] m) = concat fr.
Proof.
  rewrite concat_app.
  induction m as [|m IH]; simpl; [apply app_nil_r | exact IH].
Qed.

Lemma with_chunk_bytes fr cur n c :
  fr <> [] -> concat (with_chunk fr cur n c) = concat fr ++ c.
Proof.
  intros Hfr. unfold with_chunk. destruct (cur <? n).
  - rewrite app_assoc, concat_app, concat_placeholders. simpl.
    now rewrite app_nil_r.
  - rewrite (app_removelast_last [] Hfr) at 3.
    rewrite !concat_app. simpl. now rewrite !app_nil_r, app_assoc.
Qed.

End OutHandlers.

Section Coalescing.

Import OutArgStream.

Lemma with_chunk_join fr cur n c1 c2 :
  with_chunk (with_chunk fr cur n c1) n n c2 = with_chunk fr cur n (c1 ++ c2).
Proof.
  unfold with_chunk at 1. rewrite Nat.ltb_irrefl.
  unfold with_chunk. destruct (cur <? n).
  - rewrite !app_assoc. rewrite removelast_last, last_last. reflexivity.
  - rewrite removelast_last, last_last. now rewrite app_assoc.
Qed.

Lemma with_chunk_length fr cur n c :
  fr <> [] -> cur <= n ->
  length (with_chunk fr cur n c) = length fr + (n - cur).
Proof.
  intros Hfr Hle. unfold with_chunk. destruct (cur <? n) eqn:E.
  - apply Nat.ltb_lt in E. rewrite !length_app, repeat_length. simpl. lia.
  - apply Nat.ltb_ge in E.
    assert (H : length fr = length (removelast fr) + 1).
    { rewrite (app_removelast_last [] Hfr) at 1. now rewrite length_app. }
    rewrite length_app. simpl. lia.
Qed.

Lemma with_chunk_last fr cur n c :
  last (with_chunk fr cur n c) []
  = (if cur <? n then [] else last fr []) ++ c.
Proof.
  unfold with_chunk. destruct (cur <? n).
  - now rewrite app_assoc, last_last.
  - now rewrite last_last.
Qed.

(** Data chunks delivered one after the other for one slot. *)
Lemma run_same_slot (a : argn) : forall cs c s,
  frame s <> [] -> currentArgN s <= num a -> is_ended s (num a) = false ->
  exists s',
    run s (map (Data a) (c :: cs)) = Some s'
    /\ view s' = (with_chunk (frame s) (currentArgN s) (num a) (concat (c :: cs)),
                  num a, ended s, finished s, paused s, frames s, errors s).
Proof.
  assert (Hn : 1 <= num a <= 3) by (destruct a; simpl; lia).
  induction cs as [|c' cs IH]; intros c s Hfr Hle He.
  - destruct (handle_data s (num a) c Hfr Hle Hn He) as (s' & Hs' & Hv & _).
    exists s'. simpl. unfold onArgData. rewrite Hs'. split; [reflexivity|].
    now rewrite app_nil_r.
  - destruct (handle_data s (num a) c Hfr Hle Hn He) as (s1 & Hs1 & Hv1 & _).
    unfold view in Hv1. injection Hv1 as F1 F2 F3 F4 F5 F6 F7.
    destruct (IH c' s1) as (s' & Hs' & Hv').
    + rewrite F1. apply with_chunk_not_nil.
    + lia.
    + unfold is_ended in *. now rewrite F3.
    + exists s'. split.
      * change (map (Data a) (c :: c' :: cs))
          with (Data a c :: map (Data a) (c' :: cs)).
        cbn [run step]. unfold onArgData. rewrite Hs1. exact Hs'.
      * rewrite Hv'. rewrite F1, F2, F3, F4, F5, F6, F7.
        rewrite with_chunk_join. reflexivity.
Qed.

End Coalescing.

(** C6.  Coalescing: [N >= 1] data chunks delivered for one slot with no
    flush in between, the slot being at or after the cursor and not ended,
    leave the pending frame with one chunk for that slot, its last: the
    concatenation of the chunks in order, after what the frame already held
    for the slot.  The frame has one position per slot from where it
    started, nothing is emitted meanwhile, and the flush that follows emits
    that frame as one group. *)
Theorem coalescing (s : OutArgStream.t) (a : argn) (cs : list chunk) :
  cs <> [] ->
  OutArgStream.frame s <> [] ->
  OutArgStream.currentArgN s <= num a ->
  OutArgStream.is_ended s (num a) = false ->
  exists s',
    OutArgStream.run s (map (OutArgStream.Data a) cs) = Some s'
    /\ OutArgStream.frame s'
       = with_chunk (OutArgStream.frame s) (OutArgStream.currentArgN s) (num a) (concat cs)
    /\ last (OutArgStream.frame s') []
       = (if OutArgStream.currentArgN s <? num a then [] else last (OutArgStream.frame s) [])
         ++ concat cs
    /\ length (OutArgStream.frame s')
       = length (OutArgStream.frame s) + (num a - OutArgStream.currentArgN s)
    /\ OutArgStream.currentArgN s' = num a
    /\ OutArgStream.frames s' = OutArgStream.frames s
    /\ OutArgStream.errors s' = OutArgStream.errors s
    /\ (OutArgStream.paused s' = false -> OutArgStream.finished s' = false ->
        OutArgStream.frames (OutArgStream._flushParts s' false)
        = OutArgStream.frames s ++ [(OutArgStream.frame s', false)]).
Proof.
  intros Hcs Hfr Hle He. destruct cs as [|c cs]; [now elim Hcs|].
  destruct (run_same_slot a cs c s Hfr Hle He) as (s' & Hs' & Hv).
  exists s'. split; [exact Hs'|].
  unfold view in Hv. injection Hv as F1 F2 F3 F4 F5 F6 F7.
  rewrite F1, F2, F6, F7.
  split; [reflexivity|]. split; [apply with_chunk_last|].
  split; [now apply with_chunk_length|].
  split; [reflexivity|]. split; [reflexivity|]. split; [reflexivity|].
  intros Hp Hf.
  destruct (@flushParts_emits s' false Hp) as [Hv _].
  - rewrite Hf. reflexivity.
  - rewrite F1. apply with_chunk_not_nil.
  - unfold view in Hv. injection Hv as G1 G2 G3 G4 G5 G6 G7.
    rewrite G6, F6, F1. reflexivity.
Qed.

Lemma coalescing_witness :
  exists s',
    OutArgStream.run OutArgStream.create
      (map (OutArgStream.Data N1) [[x68%byte]; []; [x65%byte; x79%byte]])
      = Some s'
    /\ OutArgStream.frame s'
       = with_chunk (OutArgStream.frame OutArgStream.create)
           (OutArgStream.currentArgN OutArgStream.create) (num N1)
           (concat [[x68%byte]; []; [x65%byte; x79%byte]])
    /\ last (OutArgStream.frame s') []
       = (if OutArgStream.currentArgN OutArgStream.create <? num N1 then []
          else last (OutArgStream.frame OutArgStream.create) [])
         ++ concat [[x68%byte]; []; [x65%byte; x79%byte]]
    /\ length (OutArgStream.frame s')
       = length (OutArgStream.frame OutArgStream.create)
         + (num N1 - OutArgStream.currentArgN OutArgStream.create)
    /\ OutArgStream.currentArgN s' = num N1
    /\ OutArgStream.frames s' = OutArgStream.frames OutArgStream.create
    /\ OutArgStream.errors s' = OutArgStream.errors OutArgStream.create
    /\ (OutArgStream.paused s' = false -> OutArgStream.finished s' = false ->
        OutArgStream.frames (OutArgStream._flushParts s' false)
        = OutArgStream.frames OutArgStream.create ++ [(OutArgStream.frame s', false)]).
Proof.
  apply (@coalescing OutArgStream.create N1 [[x68%byte]; []; [x65%byte; x79%byte]]);
    [discriminate | discriminate | simpl; lia | reflexivity].
Defined.

Section Paused.

Import OutArgStream.

Lemma snoc_neq {A : Type} (l : list A) (x : A) : l ++ [x] <> l.
Proof.
  intros H. apply (f_equal (@length A)) in H.
  rewrite length_app in H. simpl in H. lia.
Qed.





End Paused.



(** ** The finished flag *)

Section Terminal.

Lemma end_slot_bytes (a : ArgStream.t) (n k : nat) :
  match ArgStream.slot (fst (ArgStream.end_ a n)) k with
  | Some v => StreamArg.bytes v
  | None => []
  end
  = match ArgStream.slot a k with
    | Some v => StreamArg.bytes v
    | None => []
    end.
Proof.
  destruct a as [[s1 e1 w1] [s2 e2 w2] [s3 e3 w3]].
  unfold ArgStream.end_.
  destruct n as [|[|[|[|n]]]]; simpl; try reflexivity;
    [destruct e1 | destruct e2 | destruct e3]; simpl;
    destruct k as [|[|[|[|k]]]]; reflexivity.
Qed.

Lemma on_signals_finished (s : InArgStream.t) (gs : list ArgStream.signal) :
  InArgStream.finished s = true -> InArgStream.finished (InArgStream.on_signals s gs) = true.
Proof.
  unfold InArgStream.on_signals. revert s.
  induction gs as [|g gs IH]; intros s H; simpl; [exact H|].
  apply IH. destruct g; simpl; auto.
  destruct (InArgStream._numFinished s) as [|[|[|n]]]; simpl; auto.
Qed.

Lemma advance_finished (s : InArgStream.t) :
  InArgStream.finished s = true ->
  InArgStream.finished (InArgStream.advance s) = true
  /\ forall k, InArgStream.slot_bytes (InArgStream.advance s) k = InArgStream.slot_bytes s k.
Proof.
  intros H. unfold InArgStream.advance.
  destruct (InArgStream._iStream s <? InArgStream.streams_length); [|split; auto].
  unfold InArgStream.end_current.
  pose proof (end_slot_bytes (InArgStream.args s) (S (InArgStream._iStream s))) as Hb.
  destruct (ArgStream.end_ (InArgStream.args s) (S (InArgStream._iStream s))) as [a gs].
  simpl in *. split.
  - now apply on_signals_finished.
  - intros k. unfold InArgStream.slot_bytes. simpl. rewrite on_signals_args. simpl.
    apply Hb.
Qed.

Lemma drain_finished : forall (fuel : nat) (s : InArgStream.t),
  InArgStream.finished s = true ->
  InArgStream.finished (InArgStream.drain fuel s) = true
  /\ forall k, InArgStream.slot_bytes (InArgStream.drain fuel s) k = InArgStream.slot_bytes s k.
Proof.
  induction fuel as [|f IH]; intros s H; simpl; [split; auto|].
  destruct (InArgStream.stream_defined s); [|split; auto].
  destruct (advance_finished s H) as [Hf Hb].
  destruct (IH (InArgStream.advance s) Hf) as [Hf' Hb'].
  split; [exact Hf'|]. intros k. now rewrite Hb', Hb.
Qed.

Import OutArgStream.

Lemma all_ended_set s n :
  all_ended s = true -> all_ended (set_ended s n) = true.
Proof.
  unfold all_ended. rewrite !andb_true_iff. rewrite !is_ended_set.
  intros [[H1 H2] H3]. rewrite H1, H2, H3.
  repeat split; match goal with |- (if ?b then _ else _) = _ => now destruct b end.
Qed.

(** A pair that has finished, with the three flags set and the cursor past
    slot 3: whatever happens next adds no byte; at most the pending frame
    is emitted, as a last group. *)
Lemma step_terminal s e :
  finished s = true -> all_ended s = true -> 3 < currentArgN s ->
  frame s <> [] ->
  exists s',
    step s e = Some s'
    /\ finished s' = true
    /\ all_ended s' = true
    /\ 3 < currentArgN s'
    /\ frame s' <> []
    /\ (frames s' = frames s /\ frame s' = frame s
        \/ frames s' = frames s ++ [(frame s, true)] /\ frame s' = [[]])
    /\ (forall a c, e = Data a c ->
          errors s' = errors s ++ [OutOfOrder (currentArgN s) (num a) c]
          /\ frame s' = frame s /\ frames s' = frames s).
Proof.
  intros Hf Ha Hc Hfr.
  assert (Hn : forall a, (num a <? currentArgN s) = true).
  { intros a. apply Nat.ltb_lt. destruct a; simpl; lia. }
  assert (Hflush : forall s0,
    view s0 = (frame s, currentArgN s, ended s, true, false, frames s, errors s) ->
    finished (_flushParts s0 true) = true
    /\ all_ended (_flushParts s0 true) = true
    /\ 3 < currentArgN (_flushParts s0 true)
    /\ frame (_flushParts s0 true) <> []
    /\ frames (_flushParts s0 true) = frames s ++ [(frame s, true)]
    /\ frame (_flushParts s0 true) = [[]]).
  { intros s0 Hv. unfold view in Hv. injection Hv as F1 F2 F3 F4 F5 F6 F7.
    destruct (@flushParts_emits s0 true F5) as [Hv' _].
    - now rewrite andb_false_r.
    - now rewrite F1.
    - unfold view in Hv'. injection Hv' as G1 G2 G3 G4 G5 G6 G7.
      unfold all_ended, is_ended in *.
      rewrite G1, G2, G3, G4, G6, F1, F2, F3, F4, F6.
      repeat split; auto. discriminate. }
  destruct e as [a c|a| | |]; simpl.
  - unfold onArgData, _handleFrameChunk. rewrite Hn.
    eexists. split; [reflexivity|]. simpl.
    split; [exact Hf|]. split; [exact Ha|]. split; [exact Hc|].
    split; [exact Hfr|]. split; [left; split; reflexivity|].
    intros a' c' Heq. injection Heq as <- <-. repeat split.
  - assert (He : _handleFrameChunk s (num a) None = Some (set_ended s (num a))).
    { unfold _handleFrameChunk. now rewrite Hn. }
    destruct a; cbn [onArgEnd num] in *; rewrite He.
    + eexists. split; [reflexivity|].
      split; [exact Hf|]. split; [now apply all_ended_set|].
      split; [exact Hc|]. split; [exact Hfr|].
      split; [left; split; reflexivity|]. intros; discriminate.
    + eexists. split; [reflexivity|].
      split; [exact Hf|]. split; [now apply all_ended_set|].
      split; [exact Hc|]. split; [exact Hfr|].
      split; [left; split; reflexivity|]. intros; discriminate.
    + eexists. split; [reflexivity|].
      pose proof (all_ended_set s 3 Ha) as Ha3.
      set (s3 := set_ended s 3) in *.
      change (paused s3) with (paused s).
      destruct (paused s) eqn:Ep; cbn [negb].
      * split; [reflexivity|]. split; [exact Ha3|].
        split; [exact Hc|]. split; [exact Hfr|].
        split; [left; split; reflexivity|]. intros; discriminate.
      * destruct (@flushParts_emits s3 true Ep) as [Hv' _].
        { now rewrite andb_false_r. }
        { exact Hfr. }
        unfold view in Hv'. injection Hv' as G1 G2 G3 G4 G5 G6 G7.
        split; [reflexivity|]. split.
        { unfold all_ended, is_ended in *.
          unfold set_finished; cbn [ended]. now rewrite G3. }
        unfold set_finished; cbn [currentArgN frame frames].
        rewrite G1, G2, G6.
        split; [exact Hc|]. split; [discriminate|].
        split; [right; split; reflexivity|]. intros; discriminate.
  - exists (pause s). split; [reflexivity|]. unfold pause. simpl.
    destruct (_flushImmed s); simpl;
      (split; [exact Hf|]; split; [exact Ha|]; split; [exact Hc|];
       split; [exact Hfr|]; split; [left; split; reflexivity|];
       intros; discriminate).
  - unfold resume. rewrite maybeFlush_last.
    + destruct (Hflush (set_paused s false)) as (H1 & H2 & H3 & H4 & H5 & H6).
      { unfold view. simpl. now rewrite Hf. }
      eexists. split; [reflexivity|].
      split; [exact H1|]. split; [exact H2|]. split; [exact H3|].
      split; [exact H4|]. split; [right; split; assumption|].
      intros; discriminate.
    + simpl. change (all_ended (set_paused s false)) with (all_ended s).
      now rewrite Hf, Ha.
  - exists (tick s). split; [reflexivity|]. unfold tick.
    destruct (_flushImmed s).
    + destruct (flushParts_swallowed s Hf) as [Hv _].
      unfold view in Hv. injection Hv as G1 G2 G3 G4 G5 G6 G7.
      unfold all_ended, is_ended in *. rewrite G1, G2, G3, G4, G6.
      split; [exact Hf|]. split; [exact Ha|]. split; [exact Hc|].
      split; [exact Hfr|]. split; [left; split; reflexivity|].
      intros; discriminate.
    + split; [exact Hf|]. split; [exact Ha|]. split; [exact Hc|].
      split; [exact Hfr|]. split; [left; split; reflexivity|].
      intros; discriminate.
Qed.

End Terminal.

(** C9 as stated fails on the outbound side: [finished] is set when the
    end of slot 3 is delivered, whatever the other slots have done, and a
    chunk for a slot at or after the cursor is then still taken into the
    pending frame and later emitted. *)
Lemma finished_accepts_chunk :
  exists s s' s'',
    OutArgStream.run OutArgStream.create [OutArgStream.End N3] = Some s
    /\ OutArgStream.finished s = true
    /\ OutArgStream.frame s = [[]]
    /\ OutArgStream.frames s = [([[]], true)]
    /\ OutArgStream.step s (OutArgStream.Data N1 [x61%byte]) = Some s'
    /\ OutArgStream.frame s' = [[x61%byte]]
    /\ OutArgStream.errors s' = []
    /\ OutArgStream.run s' [OutArgStream.End N1; OutArgStream.End N2] = Some s''
    /\ OutArgStream.frames s'' = [([[]], true); ([[x61%byte]; []; []], true)].
Proof.
  do 3 eexists. split; [reflexivity|]. split; [reflexivity|].
  split; [reflexivity|]. split; [reflexivity|]. split; [reflexivity|].
  split; [reflexivity|]. split; [reflexivity|]. split; reflexivity.
Qed.

(** C9, amended.  An inbound pair that has finished takes no further
    chunk: [handleFrame] with a group throws and changes nothing, and with
    [null] it leaves the bytes of every slot as they are.  An outbound
    pair that has finished with its three ended flags set and its cursor
    past slot 3 takes no further chunk either: a data chunk is rejected as
    out of order, and whatever happens no byte is added; at most the
    pending frame is emitted, marked as the last group. *)
Theorem terminal_once_finished
    (i : InArgStream.t) (parts : list chunk) (s : OutArgStream.t) (e : OutArgStream.event) :
  InArgStream.finished i = true ->
  OutArgStream.finished s = true ->
  OutArgStream.all_ended s = true ->
  3 < OutArgStream.currentArgN s ->
  OutArgStream.frame s <> [] ->
  (InArgStream.handleFrame i (Some parts)
     = (i, InArgStream.Thrown InArgStream.StreamAlreadyFinished)
   /\ InArgStream.finished (fst (InArgStream.handleFrame i None)) = true
   /\ forall k,
        InArgStream.slot_bytes (fst (InArgStream.handleFrame i None)) k
        = InArgStream.slot_bytes i k)
  /\ exists s',
       OutArgStream.step s e = Some s'
       /\ OutArgStream.finished s' = true
       /\ OutArgStream.all_ended s' = true
       /\ 3 < OutArgStream.currentArgN s'
       /\ OutArgStream.frame s' <> []
       /\ (OutArgStream.frames s' = OutArgStream.frames s
           /\ OutArgStream.frame s' = OutArgStream.frame s
           \/ OutArgStream.frames s' = OutArgStream.frames s ++ [(OutArgStream.frame s, true)]
              /\ OutArgStream.frame s' = [[]])
       /\ (forall a c, e = OutArgStream.Data a c ->
             OutArgStream.errors s'
             = OutArgStream.errors s
               ++ [OutArgStream.OutOfOrder (OutArgStream.currentArgN s) (num a) c]
             /\ OutArgStream.frame s' = OutArgStream.frame s
             /\ OutArgStream.frames s' = OutArgStream.frames s).
Proof.
  intros Hi Hf Ha Hc Hfr. split.
  - split; [unfold InArgStream.handleFrame; now rewrite Hi|].
    change (fst (InArgStream.handleFrame i None))
      with (InArgStream.drain InArgStream.streams_length i).
    now apply drain_finished.
  - now apply step_terminal.
Qed.

Lemma terminal_once_finished_witness :
  let i := fst (InArgStream.handleFrame InArgStream.create None) in
  let s := OutArgStream.mk false true [[]] 4 [false; true; true; true] false
             [([[x61%byte]; []; []], true)] [] 1 in
  let e := OutArgStream.Data N2 [x62%byte] in
  (InArgStream.handleFrame i (Some [[x62%byte]])
     = (i, InArgStream.Thrown InArgStream.StreamAlreadyFinished)
   /\ InArgStream.finished (fst (InArgStream.handleFrame i None)) = true
   /\ forall k,
        InArgStream.slot_bytes (fst (InArgStream.handleFrame i None)) k
        = InArgStream.slot_bytes i k)
  /\ exists s',
       OutArgStream.step s e = Some s'
       /\ OutArgStream.finished s' = true
       /\ OutArgStream.all_ended s' = true
       /\ 3 < OutArgStream.currentArgN s'
       /\ OutArgStream.frame s' <> []
       /\ (OutArgStream.frames s' = OutArgStream.frames s
           /\ OutArgStream.frame s' = OutArgStream.frame s
           \/ OutArgStream.frames s' = OutArgStream.frames s ++ [(OutArgStream.frame s, true)]
              /\ OutArgStream.frame s' = [[]])
       /\ (forall a c, e = OutArgStream.Data a c ->
             OutArgStream.errors s'
             = OutArgStream.errors s
               ++ [OutArgStream.OutOfOrder (OutArgStream.currentArgN s) (num a) c]
             /\ OutArgStream.frame s' = OutArgStream.frame s
             /\ OutArgStream.frames s' = OutArgStream.frames s).
Proof.
  intros i s e.
  apply (@terminal_once_finished i [[x62%byte]] s e);
    [reflexivity | reflexivity | reflexivity | simpl; lia | discriminate].
Defined.

(** ** Round trip *)

Section Demux.






Import OutArgStream.





End Demux.

Section Ordered.

Import OutArgStream.








Lemma is_ended_set_other s n k :
  k <> n -> is_ended (set_ended s n) k = is_ended s k.
Proof.
  intros H. rewrite is_ended_set.
  now replace (k =? n) with false by (symmetry; apply Nat.eqb_neq; lia).
Qed.

Lemma is_ended_set_mono s n k :
  is_ended s k = true -> is_ended (set_ended s n) k = true.
Proof. intros H. rewrite is_ended_set. now destruct (k =? n). Qed.




End Ordered.

Section RoundTrip.

Import OutArgStream.





(** Every triple of byte sequences has an in-order schedule. *)
Lemma in_order_exists (b1 b2 b3 : chunk) :
  let es := [Data N1 b1; End N1; Data N2 b2; End N2; Data N3 b3; End N3] in
  in_order 1 (ended create) es = true
  /\ written 1 es = b1 /\ written 2 es = b2 /\ written 3 es = b3.
Proof.
  simpl. unfold written. simpl. rewrite !app_nil_r. now repeat split.
Qed.

End RoundTrip.



(** ** The states the two pairs can reach *)

Section Reachable.

Lemma drain_clean : forall (fuel : nat) (s : InArgStream.t),
  in_clean s = true -> in_clean (InArgStream.drain fuel s) = true.
Proof.
  induction fuel as [|f IH]; intros s Hc; simpl; [exact Hc|].
  unfold InArgStream.stream_defined, InArgStream.streams_length.
  destruct (InArgStream._iStream s <? 3) eqn:E; [|exact Hc].
  apply Nat.ltb_lt in E. apply IH. now apply advance_clean.
Qed.

(** Every state [handleFrame] reaches from [InArgStream.create] is clean. *)
Lemma clean_reachable :
  in_clean InArgStream.create = true
  /\ forall s parts,
       in_clean s = true -> in_clean (fst (InArgStream.handleFrame s parts)) = true.
Proof.
  split; [reflexivity|]. intros s [ps|] Hc.
  - destruct (InArgStream.finished s) eqn:Hf.
    + unfold InArgStream.handleFrame. now rewrite Hf.
    + now destruct (handleFrame_clean s ps Hc Hf) as [H _].
  - now apply drain_clean.
Qed.

Import OutArgStream.

Lemma flushParts_frame s b : frame s <> [] -> frame (_flushParts s b) <> [].
Proof.
  intros Hfr. unfold _flushParts. rewrite clear_flushImmed.
  change (paused (set_flushImmed s false)) with (paused s).
  change (finished (set_flushImmed s false)) with (finished s).
  change (frame (set_flushImmed s false)) with (frame s).
  destruct (paused s); [exact Hfr|].
  destruct (finished s && negb b); [exact Hfr|].
  destruct (0 <? length (frame s)); discriminate.
Qed.

Lemma settle_total s :
  frame s <> [] -> exists s', settle s = Some s' /\ frame s' <> [].
Proof.
  intros Hfr. unfold settle.
  destruct (auto_advance_spec s) as (_ & _ & _ & A4 & _).
  set (s1 := auto_advance s) in *.
  assert (Hfr1 : frame s1 <> []).
  { rewrite A4. intros H. apply app_eq_nil in H. now destruct H. }
  destruct (finished s1 && all_ended s1) eqn:E.
  - rewrite (maybeFlush_last s1 E). eexists. split; [reflexivity|].
    now apply flushParts_frame.
  - destruct (maybeFlush_defer s1 E Hfr1) as (s' & Hs' & Hv & _).
    exists s'. split; [exact Hs'|].
    unfold view in Hv. injection Hv as F1 _ _ _ _ _ _. now rewrite F1.
Qed.

Lemma handle_total s n c :
  frame s <> [] -> 1 <= n ->
  exists s', _handleFrameChunk s n c = Some s' /\ frame s' <> [].
Proof.
  intros Hfr Hn. unfold _handleFrameChunk.
  destruct (n <? currentArgN s).
  - destruct c; eexists; (split; [reflexivity|exact Hfr]).
  - destruct (currentArgN s <? n) eqn:E.
    + destruct c as [ch|]; [|eexists; split; [reflexivity|exact Hfr]].
      apply Nat.ltb_lt in E. rewrite pad_loop_spec by lia.
      apply settle_total. simpl. intros H.
      apply app_eq_nil in H. destruct H. discriminate.
    + destruct c as [ch|]; [|now apply settle_total].
      rewrite (append_last s _ _ ch (app_removelast_last [] Hfr)).
      apply settle_total. simpl. intros H.
      apply app_eq_nil in H. destruct H. discriminate.
Qed.

(** The pending frame is never empty, so no listener ever throws: every
    event has a next state. *)
Lemma step_total s e :
  frame s <> [] -> exists s', step s e = Some s' /\ frame s' <> [].
Proof.
  intros Hfr.
  assert (Hn : forall a, 1 <= num a) by (intros []; simpl; lia).
  destruct e as [a c|a| | |]; cbn [step].
  - now apply handle_total.
  - destruct a; cbn [onArgEnd num]; try (apply handle_total; [exact Hfr|lia]).
    destruct (handle_total s 3 None Hfr) as (s1 & Hs1 & Hfr1); [lia|].
    rewrite Hs1. eexists. split; [reflexivity|].
    change (frame (set_finished ?x)) with (frame x).
    destruct (negb (paused s1)); [now apply flushParts_frame|exact Hfr1].
  - exists (pause s). split; [reflexivity|]. unfold pause. simpl.
    now destruct (_flushImmed s).
  - unfold resume.
    assert (H0 : frame (set_paused s false) <> []) by exact Hfr.
    revert H0. generalize (set_paused s false). intros s0 H0.
    destruct (finished s0 && all_ended s0) eqn:E.
    + rewrite (maybeFlush_last s0 E). eexists. split; [reflexivity|].
      now apply flushParts_frame.
    + destruct (maybeFlush_defer s0 E H0) as (s' & Hs' & Hv & _).
      exists s'. split; [exact Hs'|].
      unfold view in Hv. injection Hv as F1 _ _ _ _ _ _. now rewrite F1.
  - exists (tick s). split; [reflexivity|]. unfold tick.
    destruct (_flushImmed s); [now apply flushParts_frame|exact Hfr].
Qed.

Lemma run_total : forall es s,
  frame s <> [] -> exists s', run s es = Some s' /\ frame s' <> [].
Proof.
  induction es as [|e es IH]; intros s Hfr.
  - exists s. now split.
  - destruct (step_total s e Hfr) as (s1 & Hs1 & Hfr1).
    cbn [run]. rewrite Hs1. now apply IH.
Qed.

End Reachable.

(** * Further properties *)

(** ** InArgStream: the cursor *)

Section InCursor.

Import InArgStream.

Lemma frame_loop_cursor (parts : list chunk) : forall (first : bool) (s : t),
  _iStream s <= _iStream (fst (frame_loop first s parts))
  /\ (_iStream s <= 3 -> _iStream (fst (frame_loop first s parts)) <= 3).
Proof.
  induction parts as [|p rest IH]; intros first s; cbn [frame_loop].
  - cbn [fst]. lia.
  - set (s1 := if first then s else advance s).
    assert (H1 : _iStream s <= _iStream s1
                 /\ (_iStream s <= 3 -> _iStream s1 <= 3)).
    { subst s1. destruct first; [lia|]. rewrite advance_iStream.
      destruct (_iStream s <? 3) eqn:E; [apply Nat.ltb_lt in E|]; lia. }
    destruct (stream_defined s1); [|cbn [fst]; exact H1].
    set (s2 := if has_length p then write_current s1 p else s1).
    assert (H2 : _iStream s2 = _iStream s1).
    { subst s2. destruct (has_length p); [apply write_current_iStream|reflexivity]. }
    destruct (IH false s2) as [I1 I2]. rewrite H2 in *. lia.
Qed.

Lemma drain_cursor : forall (fuel : nat) (s : t),
  _iStream s <= _iStream (drain fuel s)
  /\ (_iStream s <= 3 -> _iStream (drain fuel s) <= 3).
Proof.
  induction fuel as [|f IH]; intros s; cbn [drain]; [lia|].
  unfold stream_defined, streams_length.
  destruct (_iStream s <? 3) eqn:E; [|lia].
  apply Nat.ltb_lt in E. destruct (IH (advance s)) as [I1 I2].
  rewrite advance_iStream in *.
  replace (_iStream s <? 3) with true in * by (symmetry; apply Nat.ltb_lt; lia).
  lia.
Qed.

Lemma handleFrame_cursor (s : t) (parts : option (list chunk)) :
  _iStream s <= _iStream (fst (handleFrame s parts))
  /\ (_iStream s <= 3 -> _iStream (fst (handleFrame s parts)) <= 3).
Proof.
  destruct parts as [ps|]; unfold handleFrame.
  - destruct (finished s); [cbn [fst]; lia|].
    pose proof (frame_loop_cursor ps true s) as H.
    destruct (frame_loop true s ps) as [s1 [|]]; exact H.
  - apply drain_cursor.
Qed.

End InCursor.

(** X1.  Monotonic cursor: whatever [handleFrame] is called with, and
    whether it returns or throws, the cursor [_iStream] does not go back;
    over any sequence of calls on a fresh pair it stays within 0..3. *)
Theorem cursor_monotone (calls more : list (option (list chunk))) :
  let s := handle_all InArgStream.create calls in
  let s' := handle_all s more in
  InArgStream._iStream s <= InArgStream._iStream s'
  /\ InArgStream._iStream s' <= 3.
Proof.
  assert (H : forall l s,
    InArgStream._iStream s <= InArgStream._iStream (handle_all s l)
    /\ (InArgStream._iStream s <= 3 ->
        InArgStream._iStream (handle_all s l) <= 3)).
  { induction l as [|p l IH]; intros s; cbn [handle_all fold_left]; [lia|].
    destruct (handleFrame_cursor s p) as [H1 H2].
    destruct (IH (fst (InArgStream.handleFrame s p))) as [I1 I2].
    unfold handle_all in *. lia. }
  intros s s'. subst s s'.
  destruct (H calls InArgStream.create) as [_ A].
  destruct (H more (handle_all InArgStream.create calls)) as [B C].
  split; [exact B|]. apply C, A. cbn. lia.
Qed.

(** ** InArgStream: the states reached from a fresh pair *)

Section InSound.

Import InArgStream.

Lemma slot_ok_push (v : StreamArg.t) (b : byte) (p : chunk) :
  slot_ok v ->
  slot_ok (StreamArg.mk true (StreamArg.ended v) (StreamArg.written v ++ [b :: p])).
Proof.
  intros [_ H2]. split; cbn.
  - now destruct (StreamArg.written v).
  - apply Forall_app. split; [exact H2|]. now constructor.
Qed.

Lemma sound_create : in_sound create.
Proof.
  unfold in_sound, slot_ok. cbn.
  repeat split; auto.
Qed.

Lemma sound_clean s : in_sound s -> in_clean s = true.
Proof. now intros [H _]. Qed.

Lemma sound_advance s :
  in_sound s -> _iStream s < 3 -> in_sound (advance s).
Proof.
  intros (Hc & Hn & Hf & He & S1 & S2 & S3) Hlt.
  destruct s as [[[s1 e1 w1] [s2 e2 w2] [s3 e3 w3]] c f n ev].
  unfold in_clean, slot_ended in Hc. cbn in *. subst n.
  destruct c as [|[|[|c]]]; try lia; cbn in *;
    destruct e1, e2, e3; try discriminate; subst f ev;
    unfold in_sound, advance, end_current, ArgStream.end_; cbn;
    repeat split; auto; try apply S1; try apply S2; try apply S3.
Qed.

Lemma sound_write s (b : byte) (p : chunk) :
  in_sound s -> _iStream s < 3 -> in_sound (write_current s (b :: p)).
Proof.
  intros (Hc & Hn & Hf & He & S1 & S2 & S3) Hlt.
  destruct s as [[[s1 e1 w1] [s2 e2 w2] [s3 e3 w3]] c f n ev].
  unfold in_clean, slot_ended in Hc. cbn in *. subst n.
  destruct c as [|[|[|c]]]; try lia; cbn in *;
    destruct e1, e2, e3; try discriminate; subst f ev;
    unfold in_sound, write_current, ArgStream.write, ArgStream._write; cbn.
  - pose proof (slot_ok_push _ b p S1) as S1'. cbn in S1'.
    destruct s1; cbn; repeat split; auto;
      try apply S1'; try apply S2; try apply S3.
  - pose proof (slot_ok_push _ b p S2) as S2'. cbn in S2'.
    destruct s2; cbn; repeat split; auto;
      try apply S1; try apply S2'; try apply S3.
  - pose proof (slot_ok_push _ b p S3) as S3'. cbn in S3'.
    destruct s3; cbn; repeat split; auto;
      try apply S1; try apply S2; try apply S3'.
Qed.

Lemma sound_frame_loop (parts : list chunk) : forall s : t,
  in_sound s -> in_sound (fst (frame_loop false s parts)).
Proof.
  induction parts as [|p rest IH]; intros s Hs; cbn [frame_loop fst]; [exact Hs|].
  pose proof (clean_cursor s (sound_clean s Hs)) as Hle.
  assert (Ha : in_sound (advance s)).
  { destruct (Nat.eq_dec (_iStream s) 3) as [E|E].
    - unfold advance, streams_length. rewrite E. exact Hs.
    - apply sound_advance; [exact Hs|lia]. }
  unfold stream_defined, streams_length.
  destruct (_iStream (advance s) <? 3) eqn:E; [|exact Ha].
  apply Nat.ltb_lt in E. apply IH.
  destruct p as [|b p]; cbn [has_length]; [exact Ha|].
  now apply sound_write.
Qed.

Lemma sound_drain : forall (fuel : nat) (s : t),
  in_sound s -> in_sound (drain fuel s).
Proof.
  induction fuel as [|f IH]; intros s Hs; cbn [drain]; [exact Hs|].
  unfold stream_defined, streams_length.
  destruct (_iStream s <? 3) eqn:E; [|exact Hs].
  apply Nat.ltb_lt in E. apply IH. now apply sound_advance.
Qed.

Lemma sound_handleFrame s parts :
  in_sound s -> in_sound (fst (handleFrame s parts)).
Proof.
  intros Hs. destruct parts as [ps|]; unfold handleFrame.
  - destruct (finished s) eqn:Hf; [exact Hs|].
    assert (Hlt : _iStream s < 3).
    { destruct Hs as (_ & _ & H & _). rewrite Hf in H.
      symmetry in H. now apply Nat.leb_gt in H. }
    assert (H : in_sound (fst (frame_loop true s ps))).
    { destruct ps as [|p rest]; cbn [frame_loop fst]; [exact Hs|].
      unfold stream_defined, streams_length.
      replace (_iStream s <? 3) with true by (symmetry; now apply Nat.ltb_lt).
      apply sound_frame_loop.
      destruct p as [|b p]; cbn [has_length]; [exact Hs|].
      now apply sound_write. }
    destruct (frame_loop true s ps) as [s1 [|]]; exact H.
  - now apply sound_drain.
Qed.

Lemma sound_reachable (calls : list (option (list chunk))) :
  in_sound (handle_all create calls).
Proof.
  assert (H : forall l s, in_sound s -> in_sound (handle_all s l)).
  { induction l as [|p l IH]; intros s Hs; cbn [handle_all fold_left]; [exact Hs|].
    apply IH. now apply sound_handleFrame. }
  apply H, sound_create.
Qed.

End InSound.



(** X3.  On every state a fresh pair reaches through [handleFrame] calls
    the pair has emitted nothing but 'finish', and that exactly once when
    it has finished: no call ever writes to a slot that has ended. *)
Theorem finish_emitted_once (calls : list (option (list chunk))) :
  let s := handle_all InArgStream.create calls in
  InArgStream.events s
  = if InArgStream.finished s then [InArgStream.EvFinish] else [].
Proof.
  intros s. pose proof (sound_reachable calls) as Hs. fold s in Hs.
  now destruct Hs as (_ & _ & _ & He & _).
Qed.

(** X4.  Empty chunks never reach a slot: on every state a fresh pair
    reaches through [handleFrame] calls, no chunk written to a slot is
    empty, and a slot has started exactly when it holds at least one
    byte. *)
Theorem started_iff_bytes
    (calls : list (option (list chunk))) (k : nat) (v : StreamArg.t) :
  let s := handle_all InArgStream.create calls in
  ArgStream.slot (InArgStream.args s) k = Some v ->
  Forall (fun c => c <> []) (StreamArg.written v)
  /\ (StreamArg.started v = true <-> InArgStream.slot_bytes s k <> []).
Proof.
  intros s Hv. pose proof (sound_reachable calls) as Hs. fold s in Hs.
  destruct Hs as (_ & _ & _ & _ & S1 & S2 & S3).
  assert (Hok : slot_ok v).
  { destruct k as [|[|[|[|k]]]]; cbn in Hv; try discriminate;
      injection Hv as <-; assumption. }
  unfold InArgStream.slot_bytes. rewrite Hv. unfold StreamArg.bytes.
  destruct Hok as [H1 H2]. split.
  - eapply Forall_impl; [|exact H2]. intros c Hc ->. discriminate.
  - rewrite H1. destruct (StreamArg.written v) as [|c w]; cbn.
    + split; [discriminate|]. intros H. now elim H.
    + split; [|reflexivity]. intros _.
      inversion H2 as [|? ? Hc _]; subst. destruct c; [discriminate|].
      discriminate.
Qed.

Lemma started_iff_bytes_witness :
  let s := handle_all InArgStream.create [Some [[]; [x61%byte]]] in
  Forall (fun c => c <> [])
    (StreamArg.written (ArgStream.arg1 (InArgStream.args s)))
  /\ (StreamArg.started (ArgStream.arg1 (InArgStream.args s)) = true
      <-> InArgStream.slot_bytes s 1 <> []).
Proof.
  intros s.
  apply (started_iff_bytes [Some [[]; [x61%byte]]] 1
           (ArgStream.arg1 (InArgStream.args s))).
  reflexivity.
Defined.



Lemma part_for_split (c : nat) (a b : list chunk) (x y : chunk) (k : nat) :
  part_for c (a ++ [x]) k ++ part_for (c + length a) (y :: b) k
  = part_for c (a ++ [x ++ y] ++ b) k.
Proof.
  unfold part_for. destruct (c <? k) eqn:E.
  - apply Nat.ltb_lt in E.
    destruct (Nat.lt_total (k - 1 - c) (length a)) as [H|[H|H]].
    + replace (c + length a <? k) with false
        by (symmetry; apply Nat.ltb_ge; lia).
      rewrite !app_nth1 by exact H. apply app_nil_r.
    + replace (c + length a <? k) with true
        by (symmetry; apply Nat.ltb_lt; lia).
      replace (k - 1 - (c + length a)) with 0 by lia.
      rewrite H. cbn [app]. now rewrite !nth_middle.
    + replace (c + length a <? k) with true
        by (symmetry; apply Nat.ltb_lt; lia).
      rewrite (nth_overflow (a ++ [x])) by (rewrite length_app; cbn; lia).
      rewrite (app_nth2 a) by lia. cbn [app].
      destruct (k - 1 - c - length a) as [|m] eqn:Em; [lia|].
      replace (k - 1 - (c + length a)) with (S m) by lia.
      reflexivity.
  - apply Nat.ltb_ge in E.
    replace (c + length a <? k) with false by (symmetry; apply Nat.ltb_ge; lia).
    reflexivity.
Qed.

(** X6.  Where a frame ends does not matter.  On a pair that has not
    finished, with room for the positions, a group that stops inside an
    argument followed by a group that goes on with it leaves the same
    cursor, the same bytes on every slot and the same slots ended as the
    one group in which the two pieces are one chunk; none of the calls
    throws. *)
Theorem group_split_irrelevant
    (calls : list (option (list chunk))) (a b : list chunk) (x y : chunk) :
  let s := handle_all InArgStream.create calls in
  InArgStream.finished s = false ->
  InArgStream._iStream s + length a + 1 + length b <= 3 ->
  let r1 := InArgStream.handleFrame s (Some (a ++ [x])) in
  let r2 := InArgStream.handleFrame (fst r1) (Some (y :: b)) in
  let r := InArgStream.handleFrame s (Some (a ++ [x ++ y] ++ b)) in
  snd r1 = InArgStream.Returned
  /\ snd r2 = InArgStream.Returned
  /\ snd r = InArgStream.Returned
  /\ InArgStream._iStream (fst r2) = InArgStream._iStream (fst r)
  /\ (forall k, 1 <= k <= 3 ->
        InArgStream.slot_bytes (fst r2) k = InArgStream.slot_bytes (fst r) k
        /\ InArgStream.slot_ended (fst r2) k = InArgStream.slot_ended (fst r) k).
Proof.
  intros s Hf Hroom r1 r2 r.
  pose proof (sound_reachable calls) as Hs. fold s in Hs.
  destruct Hs as (Hc & Hn & _).
  destruct (handleFrame_clean s (a ++ [x]) Hc Hf) as (C1 & I1 & O1 & B1 & F1).
  fold r1 in C1, I1, O1, B1, F1.
  destruct F1 as [N1 F1]; [exact Hn|lia|].
  rewrite length_app in I1, O1. cbn [length] in I1, O1.
  assert (E1 : InArgStream._iStream (fst r1) = InArgStream._iStream s + length a)
    by (rewrite I1; lia).
  assert (Hf1 : InArgStream.finished (fst r1) = false).
  { rewrite F1. apply Nat.leb_gt. lia. }
  destruct (handleFrame_clean (fst r1) (y :: b) C1 Hf1) as (C2 & I2 & O2 & B2 & _).
  fold r2 in C2, I2, O2, B2. cbn [length] in I2, O2.
  destruct (handleFrame_clean s (a ++ [x ++ y] ++ b) Hc Hf) as (C3 & I3 & O3 & B3 & _).
  fold r in C3, I3, O3, B3.
  rewrite !length_app in I3, O3. cbn [length] in I3, O3.
  assert (E2 : InArgStream._iStream (fst r2) = InArgStream._iStream (fst r))
    by (rewrite I2, I3, E1; lia).
  split.
  { rewrite O1. now replace (3 <? InArgStream._iStream s + (length a + 1))
      with false by (symmetry; apply Nat.ltb_ge; lia). }
  split.
  { rewrite O2. now replace (3 <? InArgStream._iStream (fst r1) + S (length b))
      with false by (symmetry; apply Nat.ltb_ge; lia). }
  split.
  { rewrite O3.
    now replace (3 <? InArgStream._iStream s + (length a + (1 + length b)))
      with false by (symmetry; apply Nat.ltb_ge; lia). }
  split; [exact E2|].
  intros k Hk. split.
  - rewrite B2, B1, B3 by lia. rewrite E1, <- app_assoc. f_equal.
    apply part_for_split.
  - rewrite (clean_ended (fst r2) k C2 Hk), (clean_ended (fst r) k C3 Hk).
    now rewrite E2.
Qed.

Lemma group_split_irrelevant_witness :
  let s := handle_all InArgStream.create [Some [[x61%byte]]] in
  let r1 := InArgStream.handleFrame s (Some ([[x62%byte]] ++ [[x63%byte]])) in
  let r2 := InArgStream.handleFrame (fst r1) (Some ([x64%byte] :: [[x65%byte]])) in
  let r := InArgStream.handleFrame s
             (Some ([[x62%byte]] ++ [[x63%byte] ++ [x64%byte]] ++ [[x65%byte]])) in
  snd r1 = InArgStream.Returned
  /\ snd r2 = InArgStream.Returned
  /\ snd r = InArgStream.Returned
  /\ InArgStream._iStream (fst r2) = InArgStream._iStream (fst r)
  /\ (forall k, 1 <= k <= 3 ->
        InArgStream.slot_bytes (fst r2) k = InArgStream.slot_bytes (fst r) k
        /\ InArgStream.slot_ended (fst r2) k = InArgStream.slot_ended (fst r) k).
Proof.
  apply (group_split_irrelevant [Some [[x61%byte]]] [[x62%byte]] [[x65%byte]]
           [x63%byte] [x64%byte]); [reflexivity | cbn; lia].
Defined.

(** ** OutArgStream: what every event keeps *)

Section OutWf.

Import OutArgStream.

(** The way most steps keep things: nothing is reported. *)
Lemma keeps_intro s s' extra :
  currentArgN s <= currentArgN s' ->
  (forall k, is_ended s k = true -> is_ended s' k = true) ->
  (finished s = true -> finished s' = true) ->
  (exists l, frames s' = frames s ++ l) ->
  errors s' = errors s ->
  out_bytes s' = out_bytes s ++ extra ->
  keeps s s' extra.
Proof.
  intros H1 H2 H3 H4 H5 H6. unfold keeps.
  split; [exact H1|]. split; [exact H2|]. split; [exact H3|].
  split; [exact H4|]. split; [exists []; now rewrite app_nil_r|].
  split; [intros _; exact H6|].
  unfold reported. rewrite H5, H6, <- app_assoc.
  apply Permutation_app_head, Permutation_app_comm.
Qed.

Lemma keeps_refl s : keeps s s [].
Proof.
  apply keeps_intro; auto.
  - exists []. now rewrite app_nil_r.
  - now rewrite app_nil_r.
Qed.

Lemma keeps_trans s1 s2 s3 x y :
  keeps s1 s2 x -> keeps s2 s3 y -> keeps s1 s3 (x ++ y).
Proof.
  intros (A1 & A2 & A3 & [l A4] & (ex & A5 & Ax) & A6 & A7)
         (B1 & B2 & B3 & [m B4] & (ey & B5 & By) & B6 & B7).
  unfold keeps. split; [lia|]. split; [auto|]. split; [auto|].
  split; [exists (l ++ m); rewrite B4, A4; now rewrite app_assoc|].
  split.
  { exists (ex ++ ey). split; [rewrite B5, A5; now rewrite app_assoc|].
    apply Forall_app. now split. }
  split.
  - intros H.
    assert (Hx : ex = [] /\ ey = []).
    { rewrite B5, A5, <- app_assoc in H.
      rewrite <- (app_nil_r (errors s1)) in H at 2.
      apply app_inv_head in H. now apply app_eq_nil in H. }
    destruct Hx as [-> ->]. rewrite app_nil_r in A5, B5.
    now rewrite (B6 B5), (A6 A5), app_assoc.
  - eapply perm_trans; [exact B7|].
    rewrite !app_assoc. apply Permutation_app_tail.
    rewrite <- app_assoc. exact A7.
Qed.

(** States that differ in the flush handle and the count of 'finish'
    events only. *)
Lemma keeps_view s s' :
  view s' = view s -> keeps s s' [].
Proof.
  intros Hv. unfold view in Hv. injection Hv as F1 F2 F3 F4 F5 F6 F7.
  apply keeps_intro; unfold out_bytes, groups, is_ended;
    rewrite ?F1, ?F2, ?F3, ?F4, ?F6, ?F7; auto.
  - exists []. now rewrite app_nil_r.
  - now rewrite app_nil_r.
Qed.

Lemma out_bytes_flush (fs : list (list chunk * bool)) (fr : list chunk) (b : bool) :
  concat (concat (map fst (fs ++ [(fr, b)])))
  = concat (concat (map fst fs)) ++ concat fr.
Proof.
  rewrite map_app, concat_app. cbn. rewrite !app_nil_r.
  now rewrite concat_app.
Qed.

Lemma log_ok_emit fs fin e fr b :
  log_ok fs fin e -> 1 <= length fr <= 3 ->
  (b = false -> fin = false) -> (b = true -> fin = true) ->
  log_ok (fs ++ [(fr, b)]) fin e.
Proof.
  intros (L1 & L2 & l1 & l2 & L3 & L4 & L5 & L6) Hlen Hb0 Hb1.
  split; [apply Forall_app; split; [exact L1|now constructor]|].
  split; [exact L2|].
  destruct b.
  - exists l1, (l2 ++ [(fr, true)]).
    split; [rewrite L3; now rewrite app_assoc|]. split; [exact L4|].
    split; [apply Forall_app; split; [exact L5|now constructor]|].
    intros H. rewrite Hb1 in H; [discriminate|reflexivity].
  - specialize (L6 (Hb0 eq_refl)). subst l2.
    exists (l1 ++ [(fr, false)]), [].
    split; [rewrite L3, !app_nil_r; reflexivity|].
    split; [apply Forall_app; split; [exact L4|now constructor]|].
    split; [constructor|reflexivity].
Qed.

(** [_flushParts] on a well-formed pair, when the last flush is asked for
    only by a pair that has finished. *)
Lemma wf_flushParts s b :
  out_wf s -> (b = true -> finished s = true) ->
  out_wf (_flushParts s b) /\ keeps s (_flushParts s b) [].
Proof.
  intros (Hsh & Hcur & Hsc & Hlog) Hb.
  destruct (paused s) eqn:Hp.
  - destruct (flushParts_paused s b Hp) as [Hv Hi].
    split; [|now apply keeps_view].
    unfold view in Hv. injection Hv as F1 F2 F3 F4 F5 F6 F7.
    unfold out_wf, is_ended. rewrite F1, F2, F3, F4, F5, F6, Hi, Hp.
    split; [exact Hsh|]. split; [exact Hcur|]. split; [|exact Hlog].
    split; [reflexivity|discriminate].
  - destruct (finished s && negb b) eqn:Hfb.
    + apply andb_true_iff in Hfb. destruct Hfb as [Hf Hnb].
      apply negb_true_iff in Hnb. subst b.
      destruct (flushParts_swallowed s Hf) as [Hv Hi].
      split; [|now apply keeps_view].
      unfold view in Hv. injection Hv as F1 F2 F3 F4 F5 F6 F7.
      unfold out_wf, is_ended. rewrite F1, F2, F3, F4, F5, F6, Hi, Hp, Hf.
      split; [exact Hsh|]. split; [exact Hcur|]. split; [|now rewrite Hf in Hlog].
      split; discriminate.
    + destruct Hsh as (S1 & S2 & S3 & S4).
      destruct (flushParts_emits s b Hp Hfb S1) as [Hv Hi].
      unfold view in Hv. injection Hv as F1 F2 F3 F4 F5 F6 F7.
      assert (Hlen : 1 <= length (frame s) <= 3).
      { destruct (frame s); [now elim S1|cbn in *; lia]. }
      split.
      * unfold out_wf, is_ended. rewrite F1, F2, F3, F4, F5, F6, Hi, Hp.
        split; [split; [discriminate|]; split; [exact S2|];
                split; [cbn; lia|exact S4]|].
        split; [exact Hcur|]. split; [split; [discriminate|]|].
        { intros _ _ H. discriminate. }
        apply log_ok_emit; auto.
        -- intros ->. rewrite andb_true_r in Hfb. exact Hfb.
      * apply keeps_intro; unfold out_bytes, groups, is_ended;
          rewrite ?F1, ?F2, ?F3, ?F4, ?F6, ?F7; auto.
        -- eexists; reflexivity.
        -- rewrite !app_nil_r. apply out_bytes_flush.
Qed.

(** [_maybeFlush] once the frame, the cursor and the flags are in shape. *)
Lemma wf_maybeFlush s :
  shape_ok (frame s) (currentArgN s) (ended s) ->
  is_ended s (currentArgN s) = false ->
  (paused s = true -> _flushImmed s = false) ->
  log_ok (frames s) (finished s) (ended s) ->
  exists s', _maybeFlush s = Some s' /\ out_wf s' /\ keeps s s' [].
Proof.
  intros Hsh Hcur Hpi Hlog.
  destruct (finished s && all_ended s) eqn:E.
  - rewrite (maybeFlush_last s E). eexists. split; [reflexivity|].
    apply andb_true_iff in E. destruct E as [Hf _].
    (* the flush of a finished pair: what is scheduled does not matter *)
    assert (Hwf : out_wf s).
    { split; [exact Hsh|]. split; [exact Hcur|]. split; [|exact Hlog].
      split; [exact Hpi|]. intros _ H. congruence. }
    now apply wf_flushParts.
  - destruct (maybeFlush_defer s E (proj1 Hsh)) as (s' & Hs' & Hv & Hi).
    exists s'. split; [exact Hs'|]. split; [|now apply keeps_view].
    unfold view in Hv. injection Hv as F1 F2 F3 F4 F5 F6 F7.
    unfold out_wf, is_ended. rewrite F1, F2, F3, F4, F5, F6, Hi.
    split; [exact Hsh|]. split; [exact Hcur|]. split; [|exact Hlog].
    destruct (paused s) eqn:Hp.
    + rewrite (Hpi eq_refl). split; [now destruct (has_content _)|discriminate].
    + split; [discriminate|]. intros _ _ Hc. rewrite Hc.
      now destruct (_flushImmed s).
Qed.

(** The end of [_handleFrameChunk]: the loop puts the cursor on a slot
    that has not ended, then the flush decision is taken. *)
Lemma wf_settle s :
  shape_ok (frame s) (currentArgN s) (ended s) ->
  (paused s = true -> _flushImmed s = false) ->
  log_ok (frames s) (finished s) (ended s) ->
  exists s', settle s = Some s' /\ out_wf s' /\ keeps s s' [].
Proof.
  intros (S1 & S2 & S3 & S4) Hpi Hlog. unfold settle.
  destruct (auto_advance_spec s)
    as (A1 & A2 & A3 & A4 & A5 & A6 & A7 & A8 & A9 & A10).
  set (s1 := auto_advance s) in *.
  assert (Hle : currentArgN s1 <= 4).
  { destruct (le_gt_dec (currentArgN s1) 4) as [H|H]; [exact H|].
    assert (H4 : is_ended s 4 = true) by (apply A3; lia).
    unfold is_ended in H4. rewrite S4 in H4 by lia. discriminate. }
  destruct (wf_maybeFlush s1) as (s' & Hs' & Hwf & Hk).
  - rewrite A4, A5. split.
    { intros H. apply app_eq_nil in H. now destruct H. }
    split; [lia|]. split; [rewrite length_app, repeat_length; lia|exact S4].
  - unfold is_ended in *. now rewrite A5.
  - now rewrite A8, A10.
  - now rewrite A6, A7, A5.
  - exists s'. split; [exact Hs'|]. split; [exact Hwf|].
    apply (keeps_trans s s1 s' [] []); [|exact Hk].
    apply keeps_intro; unfold out_bytes, groups, is_ended;
      rewrite ?A4, ?A5, ?A6, ?A7, ?A9, ?concat_placeholders; auto.
    + exists []. now rewrite app_nil_r.
    + now rewrite app_nil_r.
Qed.

Lemma shape_set_ended fr cur e n :
  n <= 3 -> shape_ok fr cur e -> shape_ok fr cur (array_set e n true).
Proof.
  intros Hn (S1 & S2 & S3 & S4). split; [exact S1|]. split; [exact S2|].
  split; [exact S3|]. intros k Hk. rewrite nth_array_set.
  replace (k =? n) with false by (symmetry; apply Nat.eqb_neq; lia).
  now apply S4.
Qed.

Lemma log_set_ended fs fin e n :
  log_ok fs fin e -> log_ok fs fin (array_set e n true).
Proof.
  intros (L1 & L2 & L3). split; [exact L1|]. split; [|exact L3].
  intros H. rewrite nth_array_set, (L2 H). now destruct (3 =? n).
Qed.

Lemma keeps_set_ended s n : keeps s (set_ended s n) [].
Proof.
  apply keeps_intro; auto.
  - intros k. apply is_ended_set_mono.
  - exists []. now rewrite app_nil_r.
  - unfold out_bytes. now rewrite app_nil_r.
Qed.

(** [_handleFrameChunk] on a well-formed pair. *)
Lemma wf_handle s n c :
  out_wf s -> 1 <= n <= 3 ->
  exists s',
    _handleFrameChunk s n c = Some s'
    /\ out_wf s'
    /\ keeps s s' (match c with Some ch => ch | None => [] end)
    /\ (c = None -> is_ended s' n = true).
Proof.
  intros (Hsh & Hcur & Hsc & Hlog) Hn.
  pose proof Hsh as (S1 & S2 & S3 & S4).
  destruct c as [ch|].
  - (* a data chunk *)
    destruct (n <? currentArgN s) eqn:E1.
    + (* behind the cursor: rejected *)
      unfold _handleFrameChunk. rewrite E1.
      eexists. split; [reflexivity|].
      split; [split; [exact Hsh|]; split; [exact Hcur|]; split; assumption|].
      split; [|discriminate].
      unfold keeps. cbn.
      split; [lia|]. split; [auto|]. split; [auto|].
      split; [exists []; now rewrite app_nil_r|].
      split.
      { eexists. split; [reflexivity|].
        constructor; [|constructor]. cbn. now apply Nat.ltb_lt. }
      split; [intros H; now apply snoc_neq in H|].
      unfold reported, out_bytes, groups. cbn.
      rewrite map_app, concat_app. cbn. now rewrite app_nil_r.
    + apply Nat.ltb_ge in E1.
      set (s0 := set_cursor s n (with_chunk (frame s) (currentArgN s) n ch)).
      assert (H0 : _handleFrameChunk s n (Some ch) = settle s0).
      { unfold _handleFrameChunk.
        replace (n <? currentArgN s) with false
          by (symmetry; apply Nat.ltb_ge; lia).
        destruct (currentArgN s <? n) eqn:E2.
        - apply Nat.ltb_lt in E2. rewrite pad_loop_spec by lia.
          unfold s0, with_chunk. apply Nat.ltb_lt in E2. rewrite E2.
          now rewrite <- app_assoc.
        - apply Nat.ltb_ge in E2. assert (n = currentArgN s) by lia. subst n.
          rewrite (append_last s _ _ ch (app_removelast_last [] S1)).
          unfold s0, with_chunk. rewrite Nat.ltb_irrefl.
          now destruct s. }
      rewrite H0.
      destruct (wf_settle s0) as (s' & Hs' & Hwf & Hk).
      * split; [apply with_chunk_not_nil|]. split; [cbn; lia|].
        split; [|exact S4]. cbn.
        rewrite with_chunk_length by (auto; lia). lia.
      * destruct Hsc as [Hpi _]. exact Hpi.
      * exact Hlog.
      * exists s'. split; [exact Hs'|]. split; [exact Hwf|].
        split; [|discriminate].
        rewrite <- (app_nil_r ch).
        apply (keeps_trans s s0 s' ch []); [|exact Hk].
        apply keeps_intro; auto.
        -- exists []. now rewrite app_nil_r.
        -- unfold out_bytes. cbn.
           rewrite with_chunk_bytes by exact S1. now rewrite app_assoc.
  - (* the end of a slot *)
    destruct (Nat.eq_dec n (currentArgN s)) as [E|E].
    + subst n. rewrite handle_end_current.
      set (s0 := set_ended s (currentArgN s)).
      destruct (wf_settle s0) as (s' & Hs' & Hwf & Hk).
      * apply shape_set_ended; [lia|exact Hsh].
      * destruct Hsc as [Hpi _]. exact Hpi.
      * apply log_set_ended. exact Hlog.
      * exists s'. split; [exact Hs'|]. split; [exact Hwf|].
        split.
        -- apply (keeps_trans s s0 s' [] []); [apply keeps_set_ended|exact Hk].
        -- intros _. destruct Hk as (_ & Hm & _). apply Hm.
           unfold s0. rewrite is_ended_set. now rewrite Nat.eqb_refl.
    + rewrite (handle_end_other s n E).
      eexists. split; [reflexivity|].
      split; [|split; [apply keeps_set_ended|]].
      * split; [apply shape_set_ended; [lia|exact Hsh]|].
        split; [|split; [exact Hsc|apply log_set_ended; exact Hlog]].
        change (currentArgN (set_ended s n)) with (currentArgN s).
        rewrite is_ended_set_other by lia. exact Hcur.
      * intros _. rewrite is_ended_set. now rewrite Nat.eqb_refl.
Qed.

Lemma flush_last_commute s :
  set_finished (_flushParts s true) = _flushParts (set_finished s) true.
Proof.
  destruct s as [i f fr cur e p fs er n].
  unfold _flushParts, set_finished. cbn.
  destruct i, p, f, fr; reflexivity.
Qed.

Lemma wf_set_finished s :
  out_wf s -> is_ended s 3 = true ->
  out_wf (set_finished s) /\ keeps s (set_finished s) [].
Proof.
  intros (Hsh & Hcur & [Hpi _] & (L1 & L2 & l1 & l2 & L3 & L4 & L5 & L6)) H3.
  split.
  - split; [exact Hsh|]. split; [exact Hcur|]. split.
    + split; [exact Hpi|]. cbn. intros _ H. discriminate.
    + split; [exact L1|]. split; [intros _; exact H3|].
      exists l1, l2. repeat split; auto. cbn. discriminate.
  - apply keeps_intro; auto.
    + exists []. now rewrite app_nil_r.
    + unfold out_bytes. now rewrite app_nil_r.
Qed.

(** Every event keeps a well-formed pair well formed, and no listener
    throws. *)
Lemma wf_step s e :
  out_wf s ->
  exists s', step s e = Some s' /\ out_wf s' /\ keeps s s' (data_of e).
Proof.
  intros Hwf.
  assert (Hn : forall a, 1 <= num a <= 3) by (intros []; cbn; lia).
  destruct e as [a c|a| | |]; cbn [step data_of].
  - destruct (wf_handle s (num a) (Some c) Hwf (Hn a)) as (s' & H1 & H2 & H3 & _).
    exists s'. split; [exact H1|]. split; assumption.
  - assert (H12 : exists s', _handleFrameChunk s (num a) None = Some s'
                   /\ out_wf s' /\ keeps s s' [] /\ is_ended s' (num a) = true).
    { destruct (wf_handle s (num a) None Hwf (Hn a)) as (s' & H1 & H2 & H3 & H4).
      exists s'. split; [exact H1|]. split; [exact H2|].
      split; [exact H3|]. now apply H4. }
    destruct a; cbn [onArgEnd num] in *.
    + destruct H12 as (s' & H1 & H2 & H3 & _).
      exists s'. split; [exact H1|]. split; assumption.
    + destruct H12 as (s' & H1 & H2 & H3 & _).
      exists s'. split; [exact H1|]. split; assumption.
    + destruct H12 as (s1 & H1 & H2 & H3 & H4). rewrite H1.
      eexists. split; [reflexivity|].
      destruct (wf_set_finished s1 H2 H4) as [W1 K1].
      destruct (paused s1) eqn:Hp; cbn [negb].
      * split; [exact W1|].
        apply (keeps_trans s s1 _ [] []); assumption.
      * rewrite flush_last_commute.
        destruct (wf_flushParts (set_finished s1) true W1) as [W2 K2];
          [reflexivity|].
        split; [exact W2|].
        apply (keeps_trans s s1 _ [] []); [exact H3|].
        apply (keeps_trans s1 (set_finished s1) _ [] []); assumption.
  - exists (pause s). split; [reflexivity|].
    destruct Hwf as (Hsh & Hcur & Hsc & Hlog).
    assert (Hv : view (pause s)
                 = (frame s, currentArgN s, ended s, finished s, true,
                    frames s, errors s)
                 /\ _flushImmed (pause s) = false).
    { unfold pause. cbn. destruct (_flushImmed s) eqn:Ei; cbn; rewrite ?Ei;
        split; reflexivity. }
    destruct Hv as [Hv Hi].
    split.
    + pose proof Hv as Hv'.
      unfold view in Hv'. injection Hv' as F1 F2 F3 F4 F5 F6 F7.
      unfold out_wf, is_ended. rewrite F1, F2, F3, F4, F5, F6, Hi.
      split; [exact Hsh|]. split; [exact Hcur|]. split; [|exact Hlog].
      split; [reflexivity|discriminate].
    + unfold view in Hv. injection Hv as F1 F2 F3 F4 F5 F6 F7.
      apply keeps_intro; unfold out_bytes, groups, is_ended;
        rewrite ?F1, ?F2, ?F3, ?F4, ?F6, ?F7; auto.
      * exists []. now rewrite app_nil_r.
      * now rewrite app_nil_r.
  - unfold resume.
    destruct Hwf as (Hsh & Hcur & Hsc & Hlog).
    destruct (wf_maybeFlush (set_paused s false)) as (s' & H1 & H2 & H3); auto.
    { cbn. discriminate. }
    exists s'. split; [exact H1|]. split; [exact H2|].
    apply (keeps_trans s (set_paused s false) s' [] []); [|exact H3].
    apply keeps_intro; auto.
    + exists []. now rewrite app_nil_r.
    + unfold out_bytes. now rewrite app_nil_r.
  - exists (tick s). split; [reflexivity|]. unfold tick.
    destruct (_flushImmed s); [|split; [exact Hwf|apply keeps_refl]].
    apply wf_flushParts; [exact Hwf|discriminate].
Qed.

Lemma wf_create : out_wf create.
Proof.
  unfold out_wf, shape_ok, sched_ok, log_ok, is_ended. cbn.
  split.
  { split; [discriminate|]. split; [lia|]. split; [lia|].
    intros k Hk. do 4 (destruct k as [|k]; [lia|]). now destruct k. }
  split; [reflexivity|]. split; [split; [discriminate|discriminate]|].
  split; [constructor|]. split; [discriminate|].
  exists [], []. repeat split; auto.
Qed.

Lemma wf_run : forall es s,
  out_wf s ->
  exists s', run s es = Some s' /\ out_wf s' /\ keeps s s' (delivered es).
Proof.
  induction es as [|e es IH]; intros s Hwf.
  - exists s. split; [reflexivity|]. split; [exact Hwf|apply keeps_refl].
  - destruct (wf_step s e Hwf) as (s1 & H1 & W1 & K1).
    destruct (IH s1 W1) as (s' & H2 & W2 & K2).
    exists s'. cbn [run]. rewrite H1. split; [exact H2|]. split; [exact W2|].
    change (delivered (e :: es)) with (data_of e ++ delivered es).
    now apply (keeps_trans s s1 s').
Qed.

Lemma run_app : forall es1 es2 s,
  run s (es1 ++ es2)
  = match run s es1 with Some s1 => run s1 es2 | None => None end.
Proof.
  induction es1 as [|e es1 IH]; intros es2 s; cbn [app run]; [reflexivity|].
  destruct (step s e); [apply IH|reflexivity].
Qed.

End OutWf.


(** X8.  The deferred flush of a pair reached from a fresh one: while the
    pair is paused none is scheduled; while it is neither paused nor
    finished and the pending frame holds something, one is scheduled, and
    when it runs it emits that frame as a group that is not the last. *)
Theorem flush_scheduled (es : list OutArgStream.event) :
  exists s,
    OutArgStream.run OutArgStream.create es = Some s
    /\ (OutArgStream.paused s = true -> OutArgStream._flushImmed s = false)
    /\ (OutArgStream.paused s = false -> OutArgStream.finished s = false ->
        has_content (OutArgStream.frame s) = true ->
        OutArgStream._flushImmed s = true
        /\ OutArgStream.frames (OutArgStream.tick s)
           = OutArgStream.frames s ++ [(OutArgStream.frame s, false)]
        /\ OutArgStream.frame (OutArgStream.tick s) = [[]]).
Proof.
  destruct (wf_run es OutArgStream.create wf_create) as (s & Hs & Hwf & _).
  exists s. split; [exact Hs|].
  destruct Hwf as ((S1 & _) & _ & (C1 & C2) & _).
  split; [exact C1|]. intros Hp Hf Hc.
  pose proof (C2 Hp Hf Hc) as Hi. split; [exact Hi|].
  unfold OutArgStream.tick. rewrite Hi.
  destruct (flushParts_emits s false Hp) as [Hv _]; [now rewrite Hf|exact S1|].
  unfold view in Hv. injection Hv as F1 _ _ _ _ F6 _.
  now split.
Qed.

(** X9.  The groups a pair reached from a fresh one has emitted: those
    marked [isLast] come after all those that are not, and there is one
    only if the pair has finished, which it does only once the end of slot
    3 has been delivered. *)
Theorem last_groups_come_last (es : list OutArgStream.event) :
  exists s l1 l2,
    OutArgStream.run OutArgStream.create es = Some s
    /\ OutArgStream.frames s = l1 ++ l2
    /\ Forall (fun g => snd g = false) l1
    /\ Forall (fun g => snd g = true) l2
    /\ (l2 <> [] -> OutArgStream.finished s = true)
    /\ (OutArgStream.finished s = true -> OutArgStream.is_ended s 3 = true).
Proof.
  destruct (wf_run es OutArgStream.create wf_create) as (s & Hs & Hwf & _).
  destruct Hwf as (_ & _ & _ & (_ & L2 & l1 & l2 & L3 & L4 & L5 & L6)).
  exists s, l1, l2. split; [exact Hs|]. split; [exact L3|].
  split; [exact L4|]. split; [exact L5|]. split; [|exact L2].
  intros Hne. destruct (OutArgStream.finished s); [reflexivity|].
  now elim Hne; apply L6.
Qed.

(** X10.  Nothing goes back: between any two points of any run of a fresh
    pair the cursor has not decreased, no ended flag and not the finished
    flag has been cleared, and the groups emitted and the errors reported
    have only been added to. *)
Theorem outbound_monotone (es1 es2 : list OutArgStream.event) :
  exists s1 s2,
    OutArgStream.run OutArgStream.create es1 = Some s1
    /\ OutArgStream.run OutArgStream.create (es1 ++ es2) = Some s2
    /\ OutArgStream.currentArgN s1 <= OutArgStream.currentArgN s2
    /\ (forall k, OutArgStream.is_ended s1 k = true ->
                  OutArgStream.is_ended s2 k = true)
    /\ (OutArgStream.finished s1 = true -> OutArgStream.finished s2 = true)
    /\ (exists l, OutArgStream.frames s2 = OutArgStream.frames s1 ++ l)
    /\ (exists x, OutArgStream.errors s2 = OutArgStream.errors s1 ++ x).
Proof.
  destruct (wf_run es1 OutArgStream.create wf_create) as (s1 & Hs1 & W1 & _).
  destruct (wf_run es2 s1 W1) as (s2 & Hs2 & _ & K).
  exists s1, s2. split; [exact Hs1|].
  split; [rewrite run_app, Hs1; exact Hs2|].
  destruct K as (K1 & K2 & K3 & K4 & (x & K5 & _) & _).
  repeat (split; [assumption|]). now exists x.
Qed.

(** X11.  No byte is lost, doubled or moved: after any run of a fresh pair
    in which no chunk was rejected, the chunks of the emitted groups
    followed by those of the pending frame, joined, are the delivered
    chunks, joined in the order of delivery. *)
Theorem outbound_bytes_conserved (es : list OutArgStream.event) :
  exists s,
    OutArgStream.run OutArgStream.create es = Some s
    /\ (OutArgStream.errors s = [] ->
        concat (concat (OutArgStream.groups s)) ++ concat (OutArgStream.frame s)
        = delivered es).
Proof.
  destruct (wf_run es OutArgStream.create wf_create) as (s & Hs & _ & K).
  exists s. split; [exact Hs|]. intros He.
  destruct K as (_ & _ & _ & _ & _ & K6 & _).
  apply (K6 He).
Qed.

(** X17.  Every delivered byte is accounted for, also when chunks are
    rejected: after any run of a fresh pair the bytes of the emitted
    groups, of the pending frame and of the chunks carried by the reported
    errors are, up to order, the bytes of the delivered chunks; and every
    reported error is for a slot behind the cursor it names. *)
Theorem outbound_bytes_accounted (es : list OutArgStream.event) :
  exists s,
    OutArgStream.run OutArgStream.create es = Some s
    /\ Permutation
         (concat (concat (OutArgStream.groups s))
          ++ concat (OutArgStream.frame s)
          ++ concat (map OutArgStream.rejected (OutArgStream.errors s)))
         (delivered es)
    /\ Forall (fun e => OutArgStream.got e < OutArgStream.current e)
         (OutArgStream.errors s).
Proof.
  destruct (wf_run es OutArgStream.create wf_create) as (s & Hs & _ & K).
  exists s. split; [exact Hs|].
  destruct K as (_ & _ & _ & _ & (x & K5 & Kx) & _ & K7).
  split.
  - rewrite app_assoc. exact K7.
  - rewrite K5. exact Kx.
Qed.

(** ** ArgStream: any writer *)

Section Writers.

Import ArgStream.

Lemma count_sig_app p gs more :
  count_sig p (gs ++ more) = count_sig p gs + count_sig p more.
Proof. unfold count_sig. now rewrite filter_app, length_app. Qed.

Lemma writer_inv_step st op : writer_inv st -> writer_inv (arg_apply st op).
Proof.
  destruct st as [[[s1 e1 w1] [s2 e2 w2] [s3 e3 w3]] gs].
  intros (Hc & H2 & H3). cbn in H2, H3.
  destruct (Hc 1 _ eq_refl) as [A1 B1].
  destruct (Hc 2 _ eq_refl) as [A2 B2].
  destruct (Hc 3 _ eq_refl) as [A3 B3].
  cbn in A1, B1, A2, B2, A3, B3. clear Hc.
  destruct op as [[] c|[]];
    unfold writer_inv, arg_apply, write, _write, end_, on_start; cbn;
    destruct s1, e1, s2, e2, s3, e3; cbn in *;
    try (specialize (H2 eq_refl)); try (specialize (H3 eq_refl));
    try discriminate;
    (split; [|split; intros; auto; try discriminate]);
    intros [|[|[|[|k]]]] v Hv; cbn in Hv; try discriminate;
    injection Hv as <-; unfold count_sig in *;
    rewrite ?filter_app, ?length_app; cbn;
    rewrite ?A1, ?B1, ?A2, ?B2, ?A3, ?B3; split; reflexivity.
Qed.

Lemma writer_inv_run (ops : list arg_op) : writer_inv (arg_run ops).
Proof.
  assert (H : forall l st, writer_inv st -> writer_inv (fold_left arg_apply l st)).
  { induction l as [|op l IH]; intros st Hst; cbn; [exact Hst|].
    apply IH. now apply writer_inv_step. }
  apply H. unfold writer_inv. cbn. split.
  - intros [|[|[|[|k]]]] v Hv; cbn in Hv; try discriminate;
      injection Hv as <-; split; reflexivity.
  - split; discriminate.
Qed.

End Writers.

(** X12.  Sequential boundaries, whatever the writer does: after any
    sequence of writes and ends on the slots of a fresh pair, in any order,
    a slot that has started follows a slot that has ended. *)
Theorem started_after_ended (ops : list arg_op) :
  let a := fst (arg_run ops) in
  (StreamArg.started (ArgStream.arg2 a) = true ->
   StreamArg.ended (ArgStream.arg1 a) = true)
  /\ (StreamArg.started (ArgStream.arg3 a) = true ->
      StreamArg.ended (ArgStream.arg2 a) = true).
Proof.
  intros a. destruct (writer_inv_run ops) as (_ & H2 & H3). now split.
Qed.



(** ** bufferStreamData *)

Section Buffering.

Import BufferStreamData.

Variable E : Type.

Lemma run_data : forall (cs : list chunk) (s : t E),
  listening s = true ->
  fold_left deliver (map OnData cs) s = mk true (parts s ++ cs) (calls s).
Proof.
  induction cs as [|c cs IH]; intros s Hl; cbn [map fold_left].
  - rewrite app_nil_r. destruct s; cbn in *. now subst.
  - unfold deliver at 2. rewrite Hl. rewrite IH by exact Hl.
    cbn. now rewrite <- app_assoc.
Qed.

Lemma run_detached : forall (evs : list (stream_event E)) (s : t E),
  listening s = false -> fold_left deliver evs s = s.
Proof.
  induction evs as [|ev evs IH]; intros s Hl; cbn [fold_left]; [reflexivity|].
  unfold deliver at 2. rewrite Hl. now apply IH.
Qed.

Lemma run_finish (cs : list chunk) (ev : stream_event E)
    (post : list (stream_event E)) (err : option E) :
  deliver (mk true cs []) ev = finish (mk true cs []) err ->
  run (map OnData cs ++ ev :: post) = mk false cs [(err, concat cs)].
Proof.
  intros Hev. unfold run. rewrite fold_left_app.
  rewrite (run_data cs start eq_refl). cbn [fold_left parts calls start app].
  rewrite Hev. now rewrite run_detached.
Qed.

End Buffering.

(** X14.  [bufferStreamData] calls back at most once.  While only 'data'
    has come there is no call; at the first 'end' or 'error' the callback
    gets the chunks received so far joined in order, with [null] for 'end'
    and the error for 'error'; whatever the stream emits afterwards is
    ignored. *)
Theorem buffer_calls_back_once (E : Type) (cs : list chunk) :
  BufferStreamData.calls
    (BufferStreamData.run (map (@BufferStreamData.OnData E) cs)) = []
  /\ (forall post,
        BufferStreamData.calls
          (BufferStreamData.run
             (map (@BufferStreamData.OnData E) cs
              ++ BufferStreamData.OnEnd :: post))
        = [(None, concat cs)])
  /\ (forall (err : E) post,
        BufferStreamData.calls
          (BufferStreamData.run
             (map BufferStreamData.OnData cs
              ++ BufferStreamData.OnError err :: post))
        = [(Some err, concat cs)]).
Proof.
  split; [|split].
  - unfold BufferStreamData.run.
    now rewrite (run_data E cs BufferStreamData.start eq_refl).
  - intros post.
    now rewrite (run_finish E cs BufferStreamData.OnEnd post None eq_refl).
  - intros err post.
    now rewrite (run_finish E cs (BufferStreamData.OnError err) post
                   (Some err) eq_refl).
Qed.

(** ** Groups, then [null] *)


Lemma feed_stays_open : forall (gs : list (list chunk)) (s i : InArgStream.t),
  in_clean s = true ->
  InArgStream._numFinished s = InArgStream._iStream s ->
  InArgStream.finished s = false ->
  InArgStream._iStream s < 3 ->
  InArgStream.feed s gs = (i, InArgStream.Returned) ->
  in_clean i = true
  /\ InArgStream.finished i = false
  /\ InArgStream._iStream i < 3.
Proof.
  induction gs as [|g gs IH]; intros s i Hc Hn Hf Hlt H;
    cbn [InArgStream.feed] in H.
  - injection H as <-. now repeat split.
  - destruct (handleFrame_clean s g Hc Hf) as (C1 & I1 & O1 & _ & F1).
    destruct F1 as [N1 F1]; [exact Hn|exact Hlt|].
    destruct (InArgStream.handleFrame s (Some g)) as [s1 [|e]] eqn:E;
      [|discriminate].
    cbn [fst snd] in *.
    destruct (3 <? InArgStream._iStream s + length g) eqn:E3; [discriminate|].
    apply Nat.ltb_ge in E3.
    assert (Hlt1 : InArgStream._iStream s1 < 3) by (rewrite I1; lia).
    apply (IH s1 i C1 N1); auto.
    rewrite F1. apply Nat.leb_gt. exact Hlt1.
Qed.

(** X15.  Frame groups alone never finish an inbound pair: as long as no
    call has thrown, the groups fed to a fresh pair leave the pair not
    finished, the cursor on a slot and slot 3 open. *)
Theorem groups_leave_slot3_open (gs : list (list chunk)) (i : InArgStream.t) :
  InArgStream.feed InArgStream.create gs = (i, InArgStream.Returned) ->
  InArgStream.finished i = false
  /\ InArgStream._iStream i < 3
  /\ InArgStream.slot_ended i 3 = false.
Proof.
  intros H.
  destruct (feed_stays_open gs InArgStream.create i) as (Hc & Hf & Hlt);
    auto; try (cbn; lia).
  split; [exact Hf|]. split; [exact Hlt|].
  rewrite (clean_ended i 3 Hc) by lia. apply Nat.leb_gt. exact Hlt.
Qed.

Lemma groups_leave_slot3_open_witness :
  let i := fst (InArgStream.feed InArgStream.create
                  [[[x61%byte]; []]; [[x62%byte]; [x63%byte]]; [[]]]) in
  InArgStream.finished i = false
  /\ InArgStream._iStream i < 3
  /\ InArgStream.slot_ended i 3 = false.
Proof.
  intros i.
  apply (groups_leave_slot3_open
           [[[x61%byte]; []]; [[x62%byte]; [x63%byte]]; [[]]] i).
  reflexivity.
Defined.


